(** * Crypt_Server.Server: handshake and encrypted session, verified

    A shallow embedding of [Crypt_Server/Server.py]: the [Server.key_exchange]
    handshake and the [Connection] object with its [send], [recv], [close]
    and [set_query_cooldown] methods.

    - Python [bytes] are lists of [byte]; Python [str] is a list of code
      points; the built-ins the source calls on them ([int.to_bytes],
      [int.from_bytes], [str.encode], [bytes.decode], [bytes.replace],
      slicing) are written out below.
    - A socket is a record holding its open/closed flag, the script of what
      the peer and the network will deliver to each read and do to each
      write, the log of the calls made on it, and the largest buffer the
      interpreter can allocate for a read.  A read first gets its buffer,
      which raises for a size that is too large, and then returns what has
      arrived, up to the size asked for; a write hands over its whole
      buffer or raises (the source does not look at the count [send]
      returns).
    - [time()] is a reading of a clock given by the environment; readings,
      [last_query] and the cooldown are integers in one fixed unit.
    - Exceptions are values of [exn]; a method is a function from the state
      it mutates to a [Result] and the new state.
    - The cipher module [Crypt_Server.Crypt] and [Crypto.Random] are the
      interface [Crypt]: the operations the source calls, with the laws a
      proof needs stated where it needs them.
    - The other end of a connection runs code that is not in this
      repository.  Where a statement needs it, it is a [Connection] too,
      holding in [client_token] the token it expects from its peer and in
      [server_token] the token it prepends. *)

From Stdlib Require Import ZArith NArith List Lia Strings.Byte.
From stdpp Require Import base option list strings gmap.
Import ListNotations.

Open Scope N_scope.

(** Linear arithmetic on [N] with division and remainder by constants. *)
Ltac nlia := zify; Z.to_euclidean_division_equations; lia.

(* ===================================================================== *)
(** ** Python values: bytes, str, int conversions                         *)
(* ===================================================================== *)

Abbreviation bytes := (list byte).

(** A Python [str]: its code points. *)
Abbreviation str := (list N).

#[global] Instance byte_eq_dec : EqDecision byte := Byte.byte_eq_dec.

(** The byte whose value is [n mod 256]. *)
Definition byte_of_N (n : N) : byte :=
  match Byte.of_N (n mod 256) with
  | Some b => b
  | None => x00
  end.

(** [len(b)] *)
Definition len {A} (l : list A) : N := N.of_nat (length l).

(** [b[:n]] and [b[n:]] for [n >= 0]; both stop at the end of [b]. *)
Fixpoint slice_to {A} (n : N) (l : list A) : list A :=
  match l with
  | [] => []
  | x :: l' => if n =? 0 then [] else x :: slice_to (N.pred n) l'
  end.

Fixpoint slice_from {A} (n : N) (l : list A) : list A :=
  match l with
  | [] => []
  | x :: l' => if n =? 0 then l else slice_from (N.pred n) l'
  end.

(** The [size] low-order base-256 digits of [n], most significant first. *)
Fixpoint be_digits (size : nat) (n : N) : bytes :=
  match size with
  | O => []
  | S k => be_digits k (n / 256) ++ [byte_of_N n]
  end.

(** [n.to_bytes(size, "big")]: [None] is OverflowError (int too big to
    convert). *)
Definition to_bytes (n size : N) : option bytes :=
  if n <? 256 ^ size then Some (be_digits (N.to_nat size) n) else None.

(** [int.from_bytes(b, "big")]; the empty string is 0. *)
Definition from_bytes (b : bytes) : N :=
  fold_left (fun acc x => acc * 256 + Byte.to_N x) b 0.

(** *** UTF-8, the default codec of [str.encode] and [bytes.decode] *)

Definition utf8_encode_cp (c : N) : option bytes :=
  if c <? 0x80 then Some [byte_of_N c]
  else if c <? 0x800 then
    Some [byte_of_N (0xC0 + c / 64); byte_of_N (0x80 + c mod 64)]
  else if c <? 0x10000 then
    if (0xD800 <=? c) && (c <=? 0xDFFF) then None
    else Some [byte_of_N (0xE0 + c / 4096);
               byte_of_N (0x80 + (c / 64) mod 64);
               byte_of_N (0x80 + c mod 64)]
  else if c <? 0x110000 then
    Some [byte_of_N (0xF0 + c / 262144);
          byte_of_N (0x80 + (c / 4096) mod 64);
          byte_of_N (0x80 + (c / 64) mod 64);
          byte_of_N (0x80 + c mod 64)]
  else None.

(** [s.encode()]: [None] is UnicodeEncodeError (a lone surrogate). *)
Fixpoint encode (s : str) : option bytes :=
  match s with
  | [] => Some []
  | c :: s' =>
      match utf8_encode_cp c, encode s' with
      | Some b, Some bs => Some (b ++ bs)
      | _, _ => None
      end
  end.

(** A continuation byte, 10xxxxxx. *)
Definition is_cont (b : byte) : bool :=
  (0x80 <=? Byte.to_N b) && (Byte.to_N b <? 0xC0).

Definition cont_bits (b : byte) : N := Byte.to_N b - 0x80.

(** [b.decode()]: [None] is UnicodeDecodeError (stray or missing
    continuation byte, overlong form, surrogate, value above 0x10FFFF). *)
Fixpoint decode (b : bytes) : option str :=
  match b with
  | [] => Some []
  | b0 :: t0 =>
      let n0 := Byte.to_N b0 in
      if n0 <? 0x80 then cons n0 <$> decode t0
      else if n0 <? 0xC2 then None
      else if n0 <? 0xE0 then
        match t0 with
        | b1 :: t1 =>
            if is_cont b1
            then cons ((n0 - 0xC0) * 64 + cont_bits b1) <$> decode t1
            else None
        | _ => None
        end
      else if n0 <? 0xF0 then
        match t0 with
        | b1 :: b2 :: t2 =>
            let c := (n0 - 0xE0) * 4096 + cont_bits b1 * 64 + cont_bits b2 in
            if is_cont b1 && is_cont b2 && (0x800 <=? c)
               && negb ((0xD800 <=? c) && (c <=? 0xDFFF))
            then cons c <$> decode t2
            else None
        | _ => None
        end
      else if n0 <? 0xF5 then
        match t0 with
        | b1 :: b2 :: b3 :: t3 =>
            let c := (n0 - 0xF0) * 262144 + cont_bits b1 * 4096
                     + cont_bits b2 * 64 + cont_bits b3 in
            if is_cont b1 && is_cont b2 && is_cont b3
               && (0x10000 <=? c) && (c <? 0x110000)
            then cons c <$> decode t3
            else None
        | _ => None
        end
      else None
  end.

(** *** [bytes.find] and [bytes.replace] *)

(** [b.startswith(p)] *)
Fixpoint startswith (p b : bytes) : bool :=
  match p, b with
  | [], _ => true
  | x :: p', y :: b' => bool_decide (x = y) && startswith p' b'
  | _ :: _, [] => false
  end.

(** [b.find(p)]: the lowest index at which [p] occurs in [b]; [None] is -1. *)
Fixpoint find (p b : bytes) : option N :=
  if startswith p b then Some 0
  else match b with
       | [] => None
       | _ :: b' => N.succ <$> find p b'
       end.

(** [b.replace(old, new, count)] for [count >= 0]: the first [count]
    occurrences of [old], found left to right without overlap, are replaced
    by [new].  An empty [old] matches before every byte and at the end.
    [fuel] bounds the number of occurrences, which is at most [len b + 1]. *)
Fixpoint replace_from (fuel : nat) (old new : bytes) (count : N) (b : bytes)
  : bytes :=
  match fuel with
  | O => b
  | S fuel' =>
      if count =? 0 then b
      else match old with
           | [] =>
               match b with
               | [] => new
               | x :: b' =>
                   new ++ x :: replace_from fuel' old new (N.pred count) b'
               end
           | _ :: _ =>
               match find old b with
               | Some i =>
                   slice_to i b ++ new ++
                   replace_from fuel' old new (N.pred count)
                     (slice_from (i + len old) b)
               | None => b
               end
           end
  end.

Definition replace (old new : bytes) (count : N) (b : bytes) : bytes :=
  replace_from (S (length b)) old new count b.

(* ===================================================================== *)
(** ** Exceptions and results                                             *)
(* ===================================================================== *)

(** The errors a socket call reports; all are [OSError] ([socket.error]),
    [ETIMEDOUT] standing for [socket.timeout]. *)
Inductive errno := EBADF | ETIMEDOUT | ECONNRESET | EPIPE.

Inductive exn :=
  | KeyExchangeFailed
  | InvalidToken
  | DisconnectedClient
  | UnableToDecrypt
  | TooManyQueries
  | OSError (e : errno)
  | ValueError
  | OverflowError
  | MemoryError
  | KeyError
  | UnicodeEncodeError
  | UnicodeDecodeError.

Definition is_OSError (e : exn) : bool :=
  match e with OSError _ => true | _ => false end.

Inductive Result (A : Type) :=
  | Ok (a : A)
  | Raise (e : exn).
Arguments Ok {A} a.
Arguments Raise {A} e.

(** A computation that reads and writes a state [S] and returns or raises. *)
Definition M (S A : Type) : Type := S → Result A * S.

#[global] Instance M_ret {S} : MRet (M S) := λ A a s, (Ok a, s).

#[global] Instance M_bind {S} : MBind (M S) := λ A B k m s,
  match m s with
  | (Ok a, s') => k a s'
  | (Raise e, s') => (Raise e, s')
  end.

Definition raise {S A} (e : exn) : M S A := λ s, (Raise e, s).

(** [try: m except <handles>: h] *)
Definition try_except {S A} (m : M S A) (handles : exn → bool) (h : M S A)
  : M S A := λ s,
  match m s with
  | (Raise e, s') => if handles e then h s' else (Raise e, s')
  | r => r
  end.

(** A pure step that may raise: [None] raises [e]. *)
Definition or_raise {S A} (o : option A) (e : exn) : M S A :=
  match o with
  | Some a => mret a
  | None => raise e
  end.

(* ===================================================================== *)
(** ** The socket                                                         *)
(* ===================================================================== *)

(** What one read will find: bytes that have arrived, or an error.  The end
    of the script is the peer's orderly shutdown. *)
Inductive RxEvent :=
  | RxData (b : bytes)
  | RxError (e : errno).

(** What one write will meet.  The end of the script accepts every write. *)
Inductive TxEvent :=
  | TxOk
  | TxError (e : errno).

(** The calls made on a socket, oldest first; a read is logged with what it
    returned, [None] when it raised. *)
Inductive SockOp :=
  | OpSetTimeout (t : option Z)
  | OpSend (b : bytes)
  | OpRecv (bufsize : N) (got : option bytes)
  | OpShutdown
  | OpClose.

(** [memory] is the size of the largest [bytes] object the interpreter can
    allocate on the machine the socket is on. *)
Record Socket := {
  closed : bool;
  timeout : option Z;
  rx : list RxEvent;
  tx : list TxEvent;
  calls : list SockOp;
  memory : N
}.

Definition logged (op : SockOp) (s : Socket) : Socket :=
  {| closed := closed s; timeout := timeout s; rx := rx s; tx := tx s;
     calls := calls s ++ [op]; memory := memory s |}.

Definition with_rx (evs : list RxEvent) (s : Socket) : Socket :=
  {| closed := closed s; timeout := timeout s; rx := evs; tx := tx s;
     calls := calls s; memory := memory s |}.

Definition with_tx (evs : list TxEvent) (s : Socket) : Socket :=
  {| closed := closed s; timeout := timeout s; rx := rx s; tx := evs;
     calls := calls s; memory := memory s |}.

(** [sock.settimeout(t)]: a negative value is a ValueError, a closed socket
    a bad file descriptor. *)
Definition sock_settimeout (t : option Z) : M Socket () := λ s,
  let s := logged (OpSetTimeout t) s in
  match t with
  | Some v => if (v <? 0)%Z then (Raise ValueError, s)
              else if closed s then (Raise (OSError EBADF), s)
              else (Ok (), {| closed := closed s; timeout := t; rx := rx s;
                              tx := tx s; calls := calls s;
                              memory := memory s |})
  | None => if closed s then (Raise (OSError EBADF), s)
            else (Ok (), {| closed := closed s; timeout := None; rx := rx s;
                            tx := tx s; calls := calls s; memory := memory s |})
  end.

(** The bytes one read of at most [n] takes from the script, and what is
    left of the script: a read returns what has arrived, up to [n]. *)
Fixpoint rx_read (n : N) (evs : list RxEvent)
  : Result bytes * list RxEvent :=
  match evs with
  | [] => (Ok [], [])
  | RxData [] :: evs' => rx_read n evs'
  | RxData b :: evs' =>
      (Ok (slice_to n b),
       match slice_from n b with
       | [] => evs'
       | rest => RxData rest :: evs'
       end)
  | RxError e :: evs' => (Raise (OSError e), evs')
  end.

(** A socket after [shutdown] and [close] were called on it. *)
Definition shut (s : Socket) : Socket :=
  {| closed := true; timeout := timeout s; rx := rx s; tx := tx s;
     calls := calls s ++ [OpShutdown; OpClose]; memory := memory s |}.

(** A timeout [settimeout] accepts: [None] or a non-negative number. *)
Definition valid_timeout (t : option Z) : Prop :=
  match t with
  | Some v => (0 ≤ v)%Z
  | None => True
  end.

(** The next write on the socket will be accepted. *)
Definition writable (s : Socket) : Prop :=
  closed s = false ∧ match tx s with
                     | TxError _ :: _ => False
                     | _ => True
                     end.

(** The largest size of a [bytes] object on a 64-bit CPython:
    [PY_SSIZE_T_MAX], which is 2^63 - 1, less the 33 bytes of the object's
    header. *)
Definition max_bytes : N := 2 ^ 63 - 34.

(** The interpreter gives a read on [s] a buffer of [n] bytes. *)
Definition granted (s : Socket) (n : N) : Prop := n ≤ max_bytes ∧ n ≤ memory s.

#[global] Instance granted_dec s n : Decision (granted s n).
Proof. unfold granted. apply _. Defined.

(** [sock.recv(n)].  The buffer of [n] bytes is allocated before anything
    is read: a size above [max_bytes] is an OverflowError, one above what
    the machine has a MemoryError.  Then a request for no bytes returns
    [b""] at once, also on a closed socket. *)
Definition sock_recv (n : N) : M Socket bytes := λ s,
  if max_bytes <? n then (Raise OverflowError, logged (OpRecv n None) s)
  else if memory s <? n then (Raise MemoryError, logged (OpRecv n None) s)
  else if n =? 0 then (Ok [], logged (OpRecv n (Some [])) s)
  else if closed s then (Raise (OSError EBADF), logged (OpRecv n None) s)
  else match rx_read n (rx s) with
       | (Ok b, evs) => (Ok b, logged (OpRecv n (Some b)) (with_rx evs s))
       | (Raise e, evs) => (Raise e, logged (OpRecv n None) (with_rx evs s))
       end.

(** [sock.send(b)]; the count it returns is not used by the callers. *)
Definition sock_send (b : bytes) : M Socket () := λ s,
  let s := logged (OpSend b) s in
  if closed s then (Raise (OSError EBADF), s)
  else match tx s with
       | [] => (Ok (), s)
       | TxOk :: evs => (Ok (), with_tx evs s)
       | TxError e :: evs => (Raise (OSError e), with_tx evs s)
       end.

(** [sock.shutdown(socket.SHUT_RDWR)] *)
Definition sock_shutdown : M Socket () := λ s,
  let s := logged OpShutdown s in
  if closed s then (Raise (OSError EBADF), s) else (Ok (), s).

(** [sock.close()] never raises and may be repeated. *)
Definition sock_close : M Socket () := λ s,
  (Ok (), {| closed := true; timeout := timeout s; rx := rx s; tx := tx s;
             calls := calls s ++ [OpClose]; memory := memory s |}).

(* ===================================================================== *)
(** ** The clock                                                          *)
(* ===================================================================== *)

(** [time.time()] is read from the environment: [ticks k] is what the
    [k]-th reading returns, in a fixed unit. *)
Record Clock := {
  ticks : nat → Z;
  reads : nat
}.

Definition clock_time (c : Clock) : Z * Clock :=
  (ticks c (reads c), {| ticks := ticks c; reads := S (reads c) |}).

(* ===================================================================== *)
(** ** The cipher provider                                                *)
(* ===================================================================== *)

(** [Crypt_Server.Crypt] and [Crypto.Random.get_random_bytes], as the
    source calls them.  Key and token generation draw on an entropy state;
    decryption may raise, which is [None]; a public key is a [str], as
    [key_exchange] decodes it, a private key and a symmetric key [bytes]. *)
Class Crypt := {
  Entropy : Type;
  generate_aes : N → Entropy → bytes * Entropy;
  get_random_bytes : N → Entropy → bytes * Entropy;
  encrypt_rsa : bytes → str → bytes;
  decrypt_rsa : bytes → bytes → option bytes;
  encrypt_aes : bytes → bytes → bytes;
  decrypt_aes : bytes → bytes → option bytes
}.

(* ===================================================================== *)
(** ** class Connection                                                   *)
(* ===================================================================== *)

Record Connection := {
  conn : Socket;
  client_token : bytes;
  server_token : bytes;
  aes_key : bytes;
  last_query : Z;
  query_cooldown : Z
}.

(** [Connection.__init__] *)
Definition Connection_init (conn : Socket) (client_token server_token
  aes_key : bytes) : Connection :=
  {| conn := conn; client_token := client_token;
     server_token := server_token; aes_key := aes_key;
     last_query := 0; query_cooldown := 0 |}.

(** Assignments to the attributes that change after [__init__]. *)
Definition with_conn (s : Socket) (c : Connection) : Connection :=
  {| conn := s; client_token := client_token c;
     server_token := server_token c; aes_key := aes_key c;
     last_query := last_query c; query_cooldown := query_cooldown c |}.

Definition with_last_query (t : Z) (c : Connection) : Connection :=
  {| conn := conn c; client_token := client_token c;
     server_token := server_token c; aes_key := aes_key c;
     last_query := t; query_cooldown := query_cooldown c |}.

Definition with_query_cooldown (v : Z) (c : Connection) : Connection :=
  {| conn := conn c; client_token := client_token c;
     server_token := server_token c; aes_key := aes_key c;
     last_query := last_query c; query_cooldown := v |}.

(** The state a method of [Connection] runs in: the object and the clock. *)
Record Env := {
  self : Connection;
  clock : Clock
}.

(** The object with [self.conn] in state [s]. *)
Definition put_conn (s : Socket) (e : Env) : Env :=
  {| self := with_conn s (self e); clock := clock e |}.

(** A call on [self.conn]. *)
Definition on_conn {A} (m : M Socket A) : M Env A := λ e,
  let '(r, s) := m (conn (self e)) in (r, put_conn s e).

(** What the next [time()] returns, and the state after it. *)
Definition now (e : Env) : Z := (clock_time (clock e)).1.

Definition ticked (e : Env) : Env :=
  {| self := self e; clock := (clock_time (clock e)).2 |}.

(** [time()] *)
Definition time : M Env Z := λ e, (Ok (now e), ticked e).

(** The test of [recv] line 144 on the next clock reading. *)
Definition in_cooldown (e : Env) : Prop :=
  (now e - last_query (self e) < query_cooldown (self e))%Z.

(** The state after [self.last_query = time()]. *)
Definition stamped (e : Env) : Env :=
  {| self := with_last_query (now e) (self e); clock := clock (ticked e) |}.

(** Reading an attribute of [self]. *)
Definition attr {A} (f : Connection → A) : M Env A := λ e, (Ok (f (self e)), e).

(** [self.last_query = t] *)
Definition set_last_query (t : Z) : M Env () := λ e,
  (Ok (), {| self := with_last_query t (self e); clock := clock e |}).

(** [Connection.set_query_cooldown] *)
Definition set_query_cooldown (cooldown : Z) : M Env () := λ e,
  (Ok (), {| self := with_query_cooldown cooldown (self e); clock := clock e |}).

(** [Connection.close]: an OSError of [shutdown] is passed over. *)
Definition close : M Env () :=
  try_except (on_conn sock_shutdown) is_OSError (mret ());;
  on_conn sock_close.

(** [Connection.get_conn] *)
Definition get_conn : M Env Socket := attr conn.

Section WithCrypt.
Context {crypt : Crypt}.

(** [Connection.send] *)
Definition send (msg : str) (number_size : N) : M Env () :=
  token ← attr server_token;
  data ← or_raise (encode msg) UnicodeEncodeError;
  key ← attr aes_key;
  let msg := encrypt_aes (token ++ data) key in
  leng ← or_raise (to_bytes (len msg) number_size) OverflowError;
  try_except (on_conn (sock_send (leng ++ msg))) is_OSError
    (close;; raise DisconnectedClient).

(** [Connection.recv] *)
Definition recv (timeout : option Z) (number_size : N) : M Env str :=
  now ← time;
  last ← attr last_query;
  cooldown ← attr query_cooldown;
  if bool_decide (now - last < cooldown)%Z then raise TooManyQueries
  else
    on_conn (sock_settimeout timeout);;
    prefix ← on_conn (sock_recv number_size);
    let long := from_bytes prefix in
    msg ← on_conn (sock_recv long);
    if bool_decide (msg = []) then close;; raise DisconnectedClient
    else
      key ← attr aes_key;
      msg ← or_raise (decrypt_aes msg key) UnableToDecrypt;
      token ← attr client_token;
      if bool_decide (token = slice_to (len token) msg) then
        let msg := replace token [] 1 msg in
        now ← time;
        set_last_query now;;
        or_raise (decode msg) UnicodeDecodeError
      else raise InvalidToken.

(* ===================================================================== *)
(** ** class Server                                                       *)
(* ===================================================================== *)

(** The server object as [key_exchange] uses it: the key dictionary.  (The
    listening socket [self.s] serves [accept] only.) *)
Record Server := {
  claves : gmap string bytes
}.

(** The state [key_exchange] runs in: the raw connection it is given and the
    entropy the generators draw on. *)
Record HsEnv := {
  hs_conn : Socket;
  hs_entropy : Entropy
}.

(** A call on [conn]. *)
Definition on_raw {A} (m : M Socket A) : M HsEnv A := λ e,
  let '(r, s) := m (hs_conn e) in
  (r, {| hs_conn := s; hs_entropy := hs_entropy e |}).

(** The object [conn] as it now is. *)
Definition raw : M HsEnv Socket := λ e, (Ok (hs_conn e), e).

(** A draw from the entropy. *)
Definition draw {A} (g : Entropy → A * Entropy) : M HsEnv A := λ e,
  let '(a, r) := g (hs_entropy e) in
  (Ok a, {| hs_conn := hs_conn e; hs_entropy := r |}).

(** [self.claves[k]]: a missing key is a KeyError. *)
Definition clave (srv : Server) (k : string) : M HsEnv bytes :=
  or_raise (claves srv !! k) KeyError.

(** The body of the [try] in [key_exchange]; it yields the values the code
    after the [try] uses: [token], [server_token] and [aes_key].  (What
    [decrypt_rsa] raises is not known here and makes no difference to the
    bare [except:]; it is written ValueError.) *)
Definition key_exchange_steps (srv : Server) (tunnel_anchor token_size : N)
  : M HsEnv (bytes * bytes * bytes) :=
  aes_key ← draw (generate_aes 32);
  pub ← clave srv "PUBLIC";
  on_raw (sock_send pub);;
  data ← on_raw (sock_recv tunnel_anchor);
  priv ← clave srv "PRIVATE";
  plain ← or_raise (decrypt_rsa data priv) ValueError;
  public ← or_raise (decode plain) UnicodeDecodeError;
  server_token ← draw (get_random_bytes token_size);
  on_raw (sock_send (encrypt_rsa server_token public));;
  data ← on_raw (sock_recv tunnel_anchor);
  priv ← clave srv "PRIVATE";
  token ← or_raise (decrypt_rsa data priv) ValueError;
  on_raw (sock_send (encrypt_rsa aes_key public));;
  mret (token, server_token, aes_key).

(** [Server.key_exchange]; the bare [except:] handles every exception. *)
Definition key_exchange (srv : Server) (timeout : option Z)
  (tunnel_anchor token_size : N) : M HsEnv Connection :=
  on_raw (sock_settimeout timeout);;
  secrets ←
    try_except (key_exchange_steps srv tunnel_anchor token_size) (λ _, true)
      (on_raw sock_close;; raise KeyExchangeFailed);
  conn ← raw;
  let '(token, server_token, aes_key) := secrets in
  mret (Connection_init conn token server_token aes_key).

End WithCrypt.

(* ===================================================================== *)
(** ** Tampering and the cipher's contract                                *)
(* ===================================================================== *)

(** Bit [i] of a byte string inverted: bit [i mod 8] of byte [i / 8];
    [i] beyond the string changes nothing. *)
Definition flip_byte (i : N) (b : byte) : byte :=
  byte_of_N (N.lxor (Byte.to_N b) (2 ^ i)).

Fixpoint flip_bit (i : N) (c : bytes) : bytes :=
  match c with
  | [] => []
  | x :: c' => if i <? 8 then flip_byte i x :: c' else x :: flip_bit (i - 8) c'
  end.

(** What the session relies on from [encrypt_aes] and [decrypt_aes]:
    decryption under the same key undoes encryption, and a ciphertext is
    never empty. *)
Class CryptSound (crypt : Crypt) : Prop := {
  decrypt_encrypt_aes : ∀ m k, decrypt_aes (encrypt_aes m k) k = Some m;
  encrypt_aes_nonempty : ∀ m k, encrypt_aes m k ≠ []
}.


(** What the handshake relies on from [get_random_bytes]: it returns as many
    bytes as it is asked for. *)
Definition random_bytes_sized (crypt : Crypt) : Prop :=
  ∀ n r, len (get_random_bytes n r).1 = n.

(* ===================================================================== *)
(** ** Sequences of method calls                                          *)
(* ===================================================================== *)

(** A call of a method of [Connection] by the application. *)
Inductive Call :=
  | CallSend (msg : str) (number_size : N)
  | CallRecv (timeout : option Z) (number_size : N)
  | CallSetQueryCooldown (cooldown : Z)
  | CallClose.

(** What a call gave back: the value of [recv], nothing, or an exception. *)
Inductive Outcome :=
  | Returned (v : option str)
  | Raised (e : exn).

Definition outcome_of {A} (f : A → option str) (r : Result A) : Outcome :=
  match r with
  | Ok a => Returned (f a)
  | Raise e => Raised e
  end.

Section Calls.
Context {crypt : Crypt}.

Definition call (c : Call) (e : Env) : Outcome * Env :=
  match c with
  | CallSend msg n => let '(r, e') := send msg n e in (outcome_of (λ _, None) r, e')
  | CallRecv t n => let '(r, e') := recv t n e in (outcome_of Some r, e')
  | CallSetQueryCooldown c =>
      let '(r, e') := set_query_cooldown c e in (outcome_of (λ _, None) r, e')
  | CallClose => let '(r, e') := close e in (outcome_of (λ _, None) r, e')
  end.

(** The calls made one after the other; the outcomes in the same order. *)
Fixpoint run (cs : list Call) (e : Env) : list Outcome * Env :=
  match cs with
  | [] => ([], e)
  | c :: cs' =>
      let '(o, e1) := call c e in
      let '(os, e2) := run cs' e1 in
      (o :: os, e2)
  end.

End Calls.

(** No call sets a positive cooldown. *)
Definition no_positive_cooldown (c : Call) : Prop :=
  match c with
  | CallSetQueryCooldown v => (v ≤ 0)%Z
  | _ => True
  end.

(** A call that has passed the token check of [recv]: a [recv] that has
    returned, or one that has raised UnicodeDecodeError, which only the
    decoding of its last line does. *)
Definition accepted (c : Call) (o : Outcome) : bool :=
  match c, o with
  | CallRecv _ _, Returned _ => true
  | CallRecv _ _, Raised UnicodeDecodeError => true
  | _, _ => false
  end.

(** The clock never runs backwards and starts at or after the epoch. *)
Definition monotone (c : Clock) : Prop :=
  (0 ≤ ticks c 0)%Z ∧ ∀ i j, (i ≤ j)%nat → (ticks c i ≤ ticks c j)%Z.

(* ===================================================================== *)
(** ** Notions the statements below are written with                      *)
(* ===================================================================== *)

(** The exceptions of a read that does not get its buffer. *)
Definition buffer_raises (x : exn) : Prop := x = OverflowError ∨ x = MemoryError.

(** What a read is logged with. *)
Definition got_of (r : Result bytes) : option bytes :=
  match r with
  | Ok b => Some b
  | Raise _ => None
  end.

(** A string of scalar values (no surrogate, nothing above 0x10FFFF)
    encodes. *)
Definition scalar (c : N) : Prop := c < 0xD800 ∨ (0xDFFF < c ∧ c < 0x110000).

#[global] Instance in_cooldown_dec e : Decision (in_cooldown e).
Proof. unfold in_cooldown. apply _. Defined.

(** The frame of a ciphertext [c] on the wire: its length in [n] bytes,
    most significant first, and [c]. *)
Definition framed (n : N) (c : bytes) : bytes :=
  be_digits (N.to_nat n) (len c) ++ c.

(** What holds of a connection used under a clock [k] that never runs
    backwards, as long as no positive cooldown is set: the cooldown is not
    positive and [last_query] is not after the next clock reading. *)
Definition unlimited (k : Clock) (e : Env) : Prop :=
  ticks (clock e) = ticks k ∧
  (query_cooldown (self e) ≤ 0)%Z ∧
  (last_query (self e) ≤ ticks k (reads (clock e)))%Z.

Section Paths.
Context {crypt : Crypt}.

(** The paths of [recv]: every call takes exactly one of them. *)
Inductive recv_path (t : option Z) (n : N) (e : Env)
  : Result str → Env → Prop :=
  | path_cooldown :
      in_cooldown e →
      recv_path t n e (Raise TooManyQueries) (ticked e)
  | path_settimeout x s1 :
      ¬ in_cooldown e →
      sock_settimeout t (conn (self e)) = (Raise x, s1) →
      recv_path t n e (Raise x) (put_conn s1 (ticked e))
  | path_prefix s1 x s2 :
      ¬ in_cooldown e →
      sock_settimeout t (conn (self e)) = (Ok (), s1) →
      sock_recv n s1 = (Raise x, s2) →
      recv_path t n e (Raise x) (put_conn s2 (ticked e))
  | path_payload s1 p s2 x s3 :
      ¬ in_cooldown e →
      sock_settimeout t (conn (self e)) = (Ok (), s1) →
      sock_recv n s1 = (Ok p, s2) →
      sock_recv (from_bytes p) s2 = (Raise x, s3) →
      recv_path t n e (Raise x) (put_conn s3 (ticked e))
  | path_empty s1 p s2 s3 :
      ¬ in_cooldown e →
      sock_settimeout t (conn (self e)) = (Ok (), s1) →
      sock_recv n s1 = (Ok p, s2) →
      sock_recv (from_bytes p) s2 = (Ok [], s3) →
      recv_path t n e (Raise DisconnectedClient)
        (put_conn (shut s3) (ticked e))
  | path_undecryptable s1 p s2 c s3 :
      ¬ in_cooldown e →
      sock_settimeout t (conn (self e)) = (Ok (), s1) →
      sock_recv n s1 = (Ok p, s2) →
      sock_recv (from_bytes p) s2 = (Ok c, s3) →
      c ≠ [] →
      decrypt_aes c (aes_key (self e)) = None →
      recv_path t n e (Raise UnableToDecrypt) (put_conn s3 (ticked e))
  | path_mismatch s1 p s2 c s3 m :
      ¬ in_cooldown e →
      sock_settimeout t (conn (self e)) = (Ok (), s1) →
      sock_recv n s1 = (Ok p, s2) →
      sock_recv (from_bytes p) s2 = (Ok c, s3) →
      c ≠ [] →
      decrypt_aes c (aes_key (self e)) = Some m →
      client_token (self e) ≠ slice_to (len (client_token (self e))) m →
      recv_path t n e (Raise InvalidToken) (put_conn s3 (ticked e))
  | path_match s1 p s2 c s3 m r :
      ¬ in_cooldown e →
      sock_settimeout t (conn (self e)) = (Ok (), s1) →
      sock_recv n s1 = (Ok p, s2) →
      sock_recv (from_bytes p) s2 = (Ok c, s3) →
      c ≠ [] →
      decrypt_aes c (aes_key (self e)) = Some m →
      client_token (self e) = slice_to (len (client_token (self e))) m →
      r = match decode (replace (client_token (self e)) [] 1 m) with
          | Some v => Ok v
          | None => Raise UnicodeDecodeError
          end →
      recv_path t n e r (stamped (put_conn s3 (ticked e))).

End Paths.

(* ===================================================================== *)
(** ** A small provider and sample data, for running the definitions      *)
(* ===================================================================== *)

Module Toy.

(** Every byte is written twice, so that one inverted bit shows; a leading
    marker byte keeps the ciphertext non-empty; the key's first byte is
    added to every plaintext byte. *)
Fixpoint dup (l : bytes) : bytes :=
  match l with
  | [] => []
  | x :: l' => x :: x :: dup l'
  end.

Fixpoint undup (c : bytes) : option bytes :=
  match c with
  | [] => Some []
  | x :: y :: c' => if bool_decide (x = y) then cons x <$> undup c' else None
  | [_] => None
  end.

Definition key_byte (k : bytes) : N := Byte.to_N (hd x00 k).

Definition mask (k : bytes) (b : byte) : byte :=
  byte_of_N (Byte.to_N b + key_byte k).

Definition unmask (k : bytes) (b : byte) : byte :=
  byte_of_N (Byte.to_N b + 256 - key_byte k).

Definition enc (m k : bytes) : bytes := dup (x01 :: map (mask k) m).

Definition dec (c k : bytes) : option bytes :=
  match undup c with
  | Some (x01 :: body) => Some (map (unmask k) body)
  | _ => None
  end.

(** A public key is a one-character string, its private key the same
    character as a byte; a ciphertext carries the key in front. *)
Definition enc_rsa (m : bytes) (public : str) : bytes :=
  byte_of_N (hd 0 public) :: m.

Definition dec_rsa (c private : bytes) : option bytes :=
  match c, private with
  | t :: m, k :: _ => if bool_decide (t = k) then Some m else None
  | _, _ => None
  end.

(** The entropy is a counter; a draw repeats its low byte. *)
Definition gen (n : N) (r : N) : bytes * N :=
  (List.repeat (byte_of_N r) (N.to_nat n), r + 1).

#[global] Instance crypt : Crypt := {|
  Entropy := N;
  generate_aes := gen;
  get_random_bytes := gen;
  encrypt_rsa := enc_rsa;
  decrypt_rsa := dec_rsa;
  encrypt_aes := enc;
  decrypt_aes := dec
|}.

(** A cipher without any redundancy: adding the key byte only. *)
Definition plain_crypt : Crypt := {|
  Entropy := N;
  generate_aes := gen;
  get_random_bytes := gen;
  encrypt_rsa := enc_rsa;
  decrypt_rsa := dec_rsa;
  encrypt_aes := λ m k, x01 :: map (mask k) m;
  decrypt_aes := λ c k, match c with
                        | x01 :: body => Some (map (unmask k) body)
                        | _ => None
                        end
|}.

Definition B (l : list N) : bytes := map byte_of_N l.

(** A socket just connected, with what the peer and the network will do,
    on a machine that has 4 GiB for a buffer. *)
Definition fresh_socket (rx : list RxEvent) (tx : list TxEvent) : Socket :=
  {| closed := false; timeout := None; rx := rx; tx := tx; calls := [];
     memory := 4294967296 |}.

(** A clock that advances by [step] at every reading, from [start]. *)
Definition steady (start step : Z) : Clock :=
  {| ticks := λ k, (start + step * Z.of_nat k)%Z; reads := 0 |}.

Definition server : Server :=
  {| claves := <["PUBLIC" := B [7]]> (<["PRIVATE" := B [7]]> ∅) |}.

(** The client of the sample handshake: public key "C", token 9 9. *)
Definition client_token' : bytes := B [9; 9].

Definition handshake_rx : list RxEvent :=
  [RxData (enc_rsa (B [0x43]) [7]); RxData (enc_rsa client_token' [7])].

Definition hs0 (rx : list RxEvent) (tx : list TxEvent) : HsEnv :=
  {| hs_conn := fresh_socket rx tx; hs_entropy := 5 |}.

(** An established connection of the server and its mirror image at the
    client, each with its own socket. *)
Definition established (sock : Socket) (own peer key : bytes) : Connection :=
  Connection_init sock peer own key.

Definition env (c : Connection) (k : Clock) : Env := {| self := c; clock := k |}.

(** The session of the samples: key, server token, client token. *)
Definition key : bytes := B [3].
Definition stok : bytes := B [5; 5].
Definition ctok : bytes := B [9; 9].

(** "HOLA" *)
Definition hola : str := [72; 79; 76; 65].

(** The server's end, about to send. *)
Definition server_end : Env :=
  env (established (fresh_socket [] []) stok ctok key) (steady 100 1).

(** The client's end with [rx] on its way to it. *)
Definition client_end (rx : list RxEvent) : Env :=
  env (established (fresh_socket rx []) ctok stok key) (steady 100 1).

(** The frame the server sends for a plaintext payload [b]. *)
Definition frame_of (b : bytes) : bytes := framed 5 (enc (stok ++ b) key).

Definition hola_frame : bytes := frame_of (B [72; 79; 76; 65]).

(** The frame of "HOLA" arrives in two pieces: two bytes, then the rest. *)
Definition split_delivery : list RxEvent :=
  [RxData (slice_to 2 hola_frame); RxData (slice_from 2 hola_frame)].



(** A clock that returns the readings listed, and 200 after them. *)
Definition listed (l : list Z) : Clock :=
  {| ticks := λ k, nth k l 200%Z; reads := 0 |}.

(** The client's end under such a clock. *)
Definition client_at (l : list Z) (rx : list RxEvent) : Env :=
  env (established (fresh_socket rx []) ctok stok key) (listed l).

(** A handshake in which the client's second message never arrives. *)
Definition timed_out : HsEnv :=
  hs0 [RxData (enc_rsa (B [0x43]) [7]); RxError ETIMEDOUT] [].

(** The socket of the client's end after [settimeout] and the two reads. *)
Definition after_settimeout (e : Env) : Socket :=
  (sock_settimeout None (conn (self e))).2.

Definition after_prefix (e : Env) : Socket :=
  (sock_recv 5 (after_settimeout e)).2.

Definition after_payload (e : Env) (long : N) : Socket :=
  (sock_recv long (after_prefix e)).2.

End Toy.

(* ===================================================================== *)
(** ** Notions for the further properties                                 *)
(* ===================================================================== *)

(** What is left of a delivery after a read took its front: the bytes
    [more] that came with it, if any, then the later events. *)
Definition pending (more : bytes) (evs : list RxEvent) : list RxEvent :=
  match more with
  | [] => evs
  | _ => RxData more :: evs
  end.

(** The exceptions [recv] is written to raise, and the one its last line
    can raise. *)
Definition recv_raises (x : exn) : Prop :=
  x = TooManyQueries ∨ x = DisconnectedClient ∨ x = UnableToDecrypt ∨
  x = InvalidToken ∨ x = UnicodeDecodeError.

(** The exceptions a call on the socket lets through [recv]. *)
Definition socket_raises (x : exn) : Prop :=
  x = ValueError ∨ is_OSError x = true.

(** The token check of [recv] has been passed: [recv] has returned, or
    raised from the decoding of its last line. *)
Definition past_token_check (r : Result str) : bool :=
  match r with
  | Ok _ => true
  | Raise UnicodeDecodeError => true
  | Raise _ => false
  end.

(** On a closed connection [send] and [recv] raise, the other calls
    return. *)
Definition refused (c : Call) (o : Outcome) : Prop :=
  match c with
  | CallSend _ _ | CallRecv _ _ => ∃ x, o = Raised x
  | CallSetQueryCooldown _ | CallClose => o = Returned None
  end.

Section Opened.
Context {crypt : Crypt}.

(** What [recv] makes of a ciphertext it has read, lines 152-162, given
    the key and the token it expects. *)
Definition opened (token key c : bytes) : Result str :=
  match decrypt_aes c key with
  | None => Raise UnableToDecrypt
  | Some m =>
      if bool_decide (token = slice_to (len token) m) then
        match decode (replace token [] 1 m) with
        | Some v => Ok v
        | None => Raise UnicodeDecodeError
        end
      else Raise InvalidToken
  end.

End Opened.

Module Samples.
Import Toy.

(** The server's end with a peer that has reset the connection. *)
Definition reset_end : Env :=
  env (established (fresh_socket [] [TxError ECONNRESET]) stok ctok key)
    (steady 100 1).

(** The server's end after [close]. *)
Definition closed_end : Env := (close server_end).2.

(** The server's end receiving what it has sent itself. *)
Definition echo_end : Env :=
  env (established (fresh_socket [RxData hola_frame] []) stok ctok key)
    (steady 100 1).

(** "OK" *)
Definition ok : str := [79; 75].

Definition ok_frame : bytes := frame_of (B [79; 75]).

(** A raw connection that was closed before the handshake. *)
Definition closed_raw : HsEnv :=
  {| hs_conn := (sock_close (fresh_socket handshake_rx [])).2;
     hs_entropy := 5 |}.

(** A server whose key dictionary is empty. *)
Definition keyless : Server := {| claves := ∅ |}.

(** A server that has its public key only. *)
Definition half_keyed : Server := {| claves := <["PUBLIC" := B [7]]> ∅ |}.

End Samples.

(* ===================================================================== *)
(** ** Facts about the Python built-ins                                   *)
(* ===================================================================== *)

Lemma to_N_lt (b : byte) : Byte.to_N b < 256.
Proof. pose proof (Byte.to_N_bounded b). lia. Qed.

Lemma to_N_byte_of_N (n : N) : Byte.to_N (byte_of_N n) = n mod 256.
Proof.
  unfold byte_of_N. destruct (Byte.of_N (n mod 256)) as [b|] eqn:E.
  - by apply Byte.to_of_N.
  - apply Byte.of_N_None_iff in E. nlia.
Qed.

Lemma to_N_byte_of_N_small (n : N) : n < 256 → Byte.to_N (byte_of_N n) = n.
Proof. intros. rewrite to_N_byte_of_N. by apply N.mod_small. Qed.

Lemma byte_of_N_to_N (b : byte) : byte_of_N (Byte.to_N b) = b.
Proof.
  unfold byte_of_N. rewrite N.mod_small by apply to_N_lt.
  by rewrite Byte.of_to_N.
Qed.

Lemma len_nil {A} : len (@nil A) = 0.
Proof. reflexivity. Qed.

Lemma len_cons {A} (x : A) l : len (x :: l) = N.succ (len l).
Proof. unfold len. simpl. lia. Qed.

Lemma len_app {A} (l1 l2 : list A) : len (l1 ++ l2) = len l1 + len l2.
Proof. unfold len. rewrite length_app. lia. Qed.

Lemma len_zero {A} (l : list A) : len l = 0 → l = [].
Proof. destruct l; [done | rewrite len_cons; lia]. Qed.

Lemma slice_to_app {A} (p q : list A) : slice_to (len p) (p ++ q) = p.
Proof.
  induction p as [|x p IH]; simpl.
  - by destruct q.
  - rewrite len_cons. destruct (N.eqb_spec (N.succ (len p)) 0); [lia |].
    by rewrite N.pred_succ, IH.
Qed.

Lemma slice_from_app {A} (p q : list A) : slice_from (len p) (p ++ q) = q.
Proof.
  induction p as [|x p IH]; simpl.
  - by destruct q.
  - rewrite len_cons. destruct (N.eqb_spec (N.succ (len p)) 0); [lia |].
    by rewrite N.pred_succ, IH.
Qed.

Lemma slice_to_from {A} (n : N) (l : list A) :
  slice_to n l ++ slice_from n l = l.
Proof.
  revert n. induction l as [|x l IH]; intros n; simpl; [done |].
  destruct (n =? 0); simpl; [done | by rewrite IH].
Qed.

Lemma slice_to_zero {A} (l : list A) : slice_to 0 l = [].
Proof. by destruct l. Qed.

Lemma slice_from_zero {A} (l : list A) : slice_from 0 l = l.
Proof. by destruct l. Qed.

Lemma len_slice_to {A} (n : N) (l : list A) : len (slice_to n l) = N.min n (len l).
Proof.
  revert n. induction l as [|x l IH]; intros n; simpl.
  - rewrite len_nil. lia.
  - destruct (N.eqb_spec n 0).
    + subst. rewrite len_nil. lia.
    + rewrite !len_cons, IH. lia.
Qed.

(** *** Big-endian integers *)

Lemma length_be_digits (k : nat) (n : N) : length (be_digits k n) = k.
Proof.
  revert n. induction k as [|k IH]; intros n; simpl; [done |].
  rewrite length_app, IH. simpl. lia.
Qed.

Lemma from_bytes_snoc (b : bytes) (x : byte) :
  from_bytes (b ++ [x]) = from_bytes b * 256 + Byte.to_N x.
Proof. unfold from_bytes. by rewrite fold_left_app. Qed.

Lemma from_bytes_be_digits (k : nat) (n : N) :
  from_bytes (be_digits k n) = n mod 256 ^ N.of_nat k.
Proof.
  revert n. induction k as [|k IH]; intros n.
  - simpl. by rewrite N.mod_1_r.
  - cbn [be_digits]. rewrite from_bytes_snoc, IH, to_N_byte_of_N.
    rewrite Nat2N.inj_succ, N.pow_succ_r'.
    rewrite N.Div0.mod_mul_r. lia.
Qed.

(** [to_bytes] succeeds exactly below [256 ^ size]; the result has [size]
    bytes and [from_bytes] reads the number back. *)
Lemma to_bytes_from_bytes (n size : N) :
  n < 256 ^ size →
  ∃ b, to_bytes n size = Some b ∧ len b = size ∧ from_bytes b = n.
Proof.
  intros Hn. exists (be_digits (N.to_nat size) n). unfold to_bytes.
  destruct (N.ltb_spec n (256 ^ size)); [| lia]. split; [done |]. split.
  - unfold len. rewrite length_be_digits. lia.
  - rewrite from_bytes_be_digits, N2Nat.id. by apply N.mod_small.
Qed.

Lemma to_bytes_overflow (n size : N) : 256 ^ size ≤ n → to_bytes n size = None.
Proof. intros. unfold to_bytes. by destruct (N.ltb_spec n (256 ^ size)); [lia |]. Qed.

(** *** UTF-8 *)

Lemma is_cont_byte (n : N) : n < 64 → is_cont (byte_of_N (0x80 + n)) = true.
Proof.
  intros. unfold is_cont. rewrite to_N_byte_of_N_small by lia.
  apply andb_true_intro. split; [apply N.leb_le | apply N.ltb_lt]; lia.
Qed.

Lemma cont_bits_byte (n : N) : n < 64 → cont_bits (byte_of_N (0x80 + n)) = n.
Proof. intros. unfold cont_bits. rewrite to_N_byte_of_N_small by lia. lia. Qed.

Ltac N_cases :=
  repeat match goal with
    | |- context [?a <? ?b] => destruct (N.ltb_spec a b); try nlia
    | |- context [?a <=? ?b] => destruct (N.leb_spec a b); try nlia
    end.

(** Decoding what one code point encodes to gives the code point back and
    goes on with the rest. *)
Lemma decode_encode_cp (c : N) (b rest : bytes) :
  utf8_encode_cp c = Some b → decode (b ++ rest) = cons c <$> decode rest.
Proof.
  unfold utf8_encode_cp. intros H.
  destruct (N.ltb_spec c 0x80).
  { inversion H; subst; clear H. cbn [app decode].
    rewrite to_N_byte_of_N_small by lia. by N_cases. }
  destruct (N.ltb_spec c 0x800).
  { inversion H; subst; clear H. cbn [app decode].
    assert (c / 64 < 32) by nlia. assert (c mod 64 < 64) by nlia.
    rewrite to_N_byte_of_N_small by lia.
    rewrite is_cont_byte, cont_bits_byte by lia.
    assert (2 ≤ c / 64) by nlia.
    N_cases. f_equal. f_equal. nlia. }
  destruct (N.ltb_spec c 0x10000).
  { destruct (N.leb_spec 0xD800 c), (N.leb_spec c 0xDFFF); simpl in H;
      try discriminate; inversion H; subst; clear H; cbn [app decode];
      assert (c / 4096 < 16) by nlia; assert ((c / 64) mod 64 < 64) by nlia;
      assert (c mod 64 < 64) by nlia;
      rewrite to_N_byte_of_N_small by lia;
      rewrite !is_cont_byte, !cont_bits_byte by lia;
      assert ((0xE0 + c / 4096 - 0xE0) * 4096 + (c / 64) mod 64 * 64
              + c mod 64 = c) as -> by nlia;
      N_cases; by simpl. }
  destruct (N.ltb_spec c 0x110000); [| discriminate].
  inversion H; subst; clear H. cbn [app decode].
  assert (c / 262144 < 5) by nlia.
  assert ((c / 4096) mod 64 < 64) by nlia.
  assert ((c / 64) mod 64 < 64) by nlia. assert (c mod 64 < 64) by nlia.
  rewrite to_N_byte_of_N_small by lia.
  rewrite !is_cont_byte, !cont_bits_byte by lia.
  assert ((0xF0 + c / 262144 - 0xF0) * 262144 + (c / 4096) mod 64 * 4096
          + (c / 64) mod 64 * 64 + c mod 64 = c) as -> by nlia.
  N_cases. by simpl.
Qed.

(** Whatever [encode] produces, [decode] reads back. *)
Lemma decode_encode (s : str) (b : bytes) : encode s = Some b → decode b = Some s.
Proof.
  revert b. induction s as [|c s IH]; intros b H; simpl in H.
  - by inversion H.
  - destruct (utf8_encode_cp c) as [bc|] eqn:Ec; [| discriminate].
    destruct (encode s) as [bs|] eqn:Es; [| discriminate].
    inversion H; subst; clear H.
    rewrite (decode_encode_cp _ _ _ Ec), (IH bs); done.
Qed.

Lemma encode_scalar (s : str) : Forall scalar s → is_Some (encode s).
Proof.
  induction 1 as [|c s Hc _ [bs IH]]; simpl; [by eexists |].
  rewrite IH. unfold utf8_encode_cp.
  destruct Hc as [Hc | [Hc1 Hc2]];
    destruct (N.ltb_spec c 0x80), (N.ltb_spec c 0x800), (N.ltb_spec c 0x10000),
      (N.ltb_spec c 0x110000), (N.leb_spec 0xD800 c), (N.leb_spec c 0xDFFF);
    simpl; try lia; by eexists.
Qed.

(** *** [replace] at a prefix *)

Lemma startswith_app (p q : bytes) : startswith p (p ++ q) = true.
Proof.
  induction p as [|x p IH]; simpl; [by destruct q |].
  rewrite bool_decide_eq_true_2 by done. by rewrite IH.
Qed.

Lemma find_app (p q : bytes) : find p (p ++ q) = Some 0.
Proof. destruct p, q; simpl; try done; by rewrite bool_decide_eq_true_2, startswith_app. Qed.

Lemma replace_from_zero fuel old new b : replace_from fuel old new 0 b = b.
Proof. by destruct fuel. Qed.

(** Replacing one occurrence of [p] in a string that starts with [p] removes
    that first [p] and nothing else. *)
Lemma replace_prefix (p q : bytes) : replace p [] 1 (p ++ q) = q.
Proof.
  unfold replace. cbn [replace_from]. simpl (1 =? 0).
  destruct p as [|x p].
  - simpl. destruct q; [done |]. by rewrite replace_from_zero.
  - rewrite find_app, slice_to_zero. simpl (N.pred 1).
    rewrite replace_from_zero, N.add_0_l, slice_from_app. done.
Qed.

(** A string whose slice of the token's length is the token starts with the
    token. *)
Lemma slice_to_eq_prefix (t b : bytes) :
  t = slice_to (len t) b → b = t ++ slice_from (len t) b.
Proof. intros H. rewrite H at 1. by rewrite slice_to_from. Qed.

(* ===================================================================== *)
(** ** Facts about the monad and the socket                               *)
(* ===================================================================== *)

Lemma bind_ok {S A B} (m : M S A) (k : A → M S B) s a s1 :
  m s = (Ok a, s1) → (m ≫= k) s = k a s1.
Proof. intros H. unfold mbind, M_bind. by rewrite H. Qed.

Lemma bind_raise {S A B} (m : M S A) (k : A → M S B) s x s1 :
  m s = (Raise x, s1) → (m ≫= k) s = (Raise x, s1).
Proof. intros H. unfold mbind, M_bind. by rewrite H. Qed.

Lemma bind_inv {S A B} (m : M S A) (k : A → M S B) s r s' :
  (m ≫= k) s = (r, s') →
  (∃ a s1, m s = (Ok a, s1) ∧ k a s1 = (r, s')) ∨
  (∃ x, m s = (Raise x, s') ∧ r = Raise x).
Proof.
  unfold mbind, M_bind. destruct (m s) as [[a|x] s1]; intros H.
  - left. by exists a, s1.
  - right. exists x. by inversion H.
Qed.

Lemma bind_inv_ok {S A B} (m : M S A) (k : A → M S B) s b s' :
  (m ≫= k) s = (Ok b, s') → ∃ a s1, m s = (Ok a, s1) ∧ k a s1 = (Ok b, s').
Proof.
  intros H. apply bind_inv in H as [(a & s1 & ? & ?) | (x & _ & ?)]; [| done].
  by exists a, s1.
Qed.

Lemma or_raise_inv_ok {S A} (o : option A) x (s s' : S) a :
  or_raise o x s = (Ok a, s') → o = Some a ∧ s' = s.
Proof. destruct o; unfold or_raise, raise; cbn; intros H; by inversion H. Qed.

(** *** The socket calls *)

Lemma sock_settimeout_ok t s s1 :
  sock_settimeout t s = (Ok (), s1) →
  closed s = false ∧ valid_timeout t ∧
  s1 = {| closed := false; timeout := t; rx := rx s; tx := tx s;
          calls := calls s ++ [OpSetTimeout t]; memory := memory s |}.
Proof.
  unfold sock_settimeout. cbn. destruct t as [v|], (closed s) eqn:Hc; cbn;
    try destruct (Z.ltb_spec v 0); intros Heq; inversion Heq; subst; clear Heq;
    repeat split; cbn; lia.
Qed.

Lemma sock_settimeout_open t s :
  closed s = false → valid_timeout t →
  sock_settimeout t s =
    (Ok (), {| closed := false; timeout := t; rx := rx s; tx := tx s;
               calls := calls s ++ [OpSetTimeout t]; memory := memory s |}).
Proof.
  unfold sock_settimeout, valid_timeout. cbn. intros -> Ht.
  destruct t as [v|]; [| done]. by destruct (Z.ltb_spec v 0); [lia |].
Qed.

Lemma sock_settimeout_calls t s r s1 :
  sock_settimeout t s = (r, s1) →
  closed s1 = closed s ∧ calls s1 = calls s ++ [OpSetTimeout t] ∧
  rx s1 = rx s ∧ tx s1 = tx s ∧ memory s1 = memory s.
Proof.
  unfold sock_settimeout. cbn. destruct t as [v|], (closed s) eqn:Hc; cbn;
    try destruct (Z.ltb_spec v 0); intros Heq; inversion Heq; subst; clear Heq;
    done.
Qed.

Lemma sock_recv_calls n s r s1 :
  sock_recv n s = (r, s1) →
  closed s1 = closed s ∧ calls s1 = calls s ++ [OpRecv n (got_of r)] ∧
  tx s1 = tx s ∧ timeout s1 = timeout s ∧ memory s1 = memory s.
Proof.
  unfold sock_recv. destruct (max_bytes <? n); [| destruct (memory s <? n)];
    [| | destruct (n =? 0); [| destruct (closed s) eqn:Hc];
         [| | destruct (rx_read n (rx s)) as [[b|x] evs]]];
    intros Heq; inversion Heq; subst; clear Heq; done.
Qed.

Lemma sock_recv_zero s :
  sock_recv 0 s = (Ok [], logged (OpRecv 0 (Some [])) s).
Proof. unfold sock_recv. by destruct (memory s). Qed.

(** With its buffer granted, a read is the end of file for no bytes, a bad
    file descriptor on a closed socket, and else what the script has. *)
Lemma sock_recv_granted n s :
  granted s n →
  sock_recv n s =
    if n =? 0 then (Ok [], logged (OpRecv n (Some [])) s)
    else if closed s then (Raise (OSError EBADF), logged (OpRecv n None) s)
    else match rx_read n (rx s) with
         | (Ok b, evs) => (Ok b, logged (OpRecv n (Some b)) (with_rx evs s))
         | (Raise e, evs) => (Raise e, logged (OpRecv n None) (with_rx evs s))
         end.
Proof.
  intros [Hmax Hmem]. unfold sock_recv.
  destruct (N.ltb_spec max_bytes n); [lia |].
  by destruct (N.ltb_spec (memory s) n); [lia |].
Qed.

(** Without it the read raises, and nothing is taken from the script. *)
Lemma sock_recv_refused n s :
  ¬ granted s n →
  sock_recv n s =
    (Raise (if max_bytes <? n then OverflowError else MemoryError),
     logged (OpRecv n None) s).
Proof.
  intros Hg. unfold sock_recv.
  destruct (N.ltb_spec max_bytes n); [done |].
  destruct (N.ltb_spec (memory s) n); [done |].
  by destruct Hg.
Qed.

(** A read that has returned had its buffer. *)
Lemma sock_recv_ok_granted n s b s1 :
  sock_recv n s = (Ok b, s1) → granted s n.
Proof.
  unfold sock_recv, granted.
  destruct (N.ltb_spec max_bytes n); [done |].
  destruct (N.ltb_spec (memory s) n); [done |]. done.
Qed.

Lemma rx_read_len n evs b evs' : rx_read n evs = (Ok b, evs') → len b ≤ n.
Proof.
  induction evs as [|[[|x d]|x] evs IH]; cbn [rx_read]; intros Heq.
  - inversion Heq; subst. rewrite len_nil. lia.
  - by apply IH.
  - assert (len (slice_to n (x :: d)) ≤ n) as Hle by (rewrite len_slice_to; lia).
    injection Heq as <- _. exact Hle.
  - inversion Heq.
Qed.

Lemma rx_read_data n b evs :
  b ≠ [] →
  rx_read n (RxData b :: evs) =
    (Ok (slice_to n b),
     match slice_from n b with
     | [] => evs
     | rest => RxData rest :: evs
     end).
Proof. by destruct b. Qed.

(** A read never returns more than was asked for. *)
Lemma sock_recv_len n s b s1 : sock_recv n s = (Ok b, s1) → len b ≤ n.
Proof.
  intros H. pose proof (sock_recv_ok_granted _ _ _ _ H) as Hg.
  rewrite (sock_recv_granted _ _ Hg) in H. revert H.
  destruct (n =? 0); [| destruct (closed s)];
    [| | destruct (rx_read n (rx s)) as [[d|x] evs] eqn:E];
    intros Heq; inversion Heq; subst; clear Heq.
  - rewrite len_nil. lia.
  - by eapply rx_read_len.
Qed.

(** When the bytes asked for have arrived together, the read returns just
    them and leaves what came with them. *)
Lemma sock_recv_data n s b more evs :
  closed s = false → n ≠ 0 → len b = n → rx s = RxData (b ++ more) :: evs →
  granted s n →
  sock_recv n s =
    (Ok b, logged (OpRecv n (Some b))
             (with_rx (match more with
                       | [] => evs
                       | _ => RxData more :: evs
                       end) s)).
Proof.
  intros Hc Hn Hb Hrx Hg. rewrite (sock_recv_granted _ _ Hg).
  destruct (N.eqb_spec n 0); [done |]. rewrite Hc, Hrx.
  rewrite rx_read_data.
  - rewrite <-Hb, slice_to_app, slice_from_app. by destruct more.
  - destruct b; [by rewrite len_nil in Hb; subst | done].
Qed.

(** After the peer's orderly shutdown a read returns [b""]. *)
Lemma sock_recv_eof n s :
  closed s = false → rx s = [] → granted s n →
  sock_recv n s = (Ok [], logged (OpRecv n (Some [])) (with_rx [] s)).
Proof.
  intros Hc Hrx Hg. rewrite (sock_recv_granted _ _ Hg), Hc, Hrx. cbn.
  destruct (n =? 0); [| done]. by destruct s; cbn in *; subst.
Qed.

Lemma sock_send_calls b s r s1 :
  sock_send b s = (r, s1) →
  closed s1 = closed s ∧ calls s1 = calls s ++ [OpSend b] ∧ rx s1 = rx s.
Proof.
  unfold sock_send. cbn. destruct (closed s) eqn:Hc; [| destruct (tx s) as [|[|x] evs]];
    intros Heq; inversion Heq; subst; clear Heq; done.
Qed.

Lemma sock_send_raises b s x s1 :
  sock_send b s = (Raise x, s1) → is_OSError x = true.
Proof.
  unfold sock_send. cbn. destruct (closed s) eqn:Hc; [| destruct (tx s) as [|[|y] evs]];
    intros Heq; inversion Heq; subst; clear Heq; done.
Qed.

(** [Connection.close] always returns, having called [shutdown] and then
    [close] on the socket. *)
Lemma close_spec (e : Env) : close e = (Ok (), put_conn (shut (conn (self e))) e).
Proof.
  unfold close, try_except, mbind, M_bind, on_conn, sock_shutdown, sock_close,
    put_conn, shut.
  destruct e as [[s ? ? ? ? ?] k]. cbn.
  destruct (closed s); cbn; by rewrite <-app_assoc.
Qed.

(** Closing twice is closing: the second [close] returns too and the socket
    stays closed. *)
Lemma close_twice (e : Env) :
  ∃ e', (close;; close) e = (Ok (), e') ∧ closed (conn (self e')) = true.
Proof.
  unfold mbind, M_bind. rewrite close_spec, close_spec. by eexists.
Qed.

(* ===================================================================== *)
(** ** [Connection.recv], path by path                                    *)
(* ===================================================================== *)

Section Session.
Context {crypt : Crypt}.

#[local] Arguments replace : simpl never.
#[local] Arguments decode : simpl never.
#[local] Arguments encode : simpl never.
#[local] Arguments to_bytes : simpl never.
#[local] Arguments from_bytes : simpl never.
#[local] Arguments slice_to : simpl never.
#[local] Arguments slice_from : simpl never.
#[local] Arguments len : simpl never.
#[local] Arguments sock_recv : simpl never.
#[local] Arguments sock_send : simpl never.
#[local] Arguments sock_settimeout : simpl never.
#[local] Arguments close : simpl never.
#[local] Arguments now : simpl never.
#[local] Arguments shut : simpl never.

Ltac recv_unfold :=
  unfold recv, mbind, M_bind, time, attr, raise, on_conn, set_last_query; cbn.

(** Line 144-145: inside the cooldown nothing but the clock is touched. *)
Lemma recv_in_cooldown t n e :
  in_cooldown e → recv t n e = (Raise TooManyQueries, ticked e).
Proof. intros H. recv_unfold. by rewrite bool_decide_eq_true_2. Qed.

(** Line 146: an exception of [settimeout] leaves [recv]. *)
Lemma recv_settimeout_raises t n e x s1 :
  ¬ in_cooldown e →
  sock_settimeout t (conn (self e)) = (Raise x, s1) →
  recv t n e = (Raise x, put_conn s1 (ticked e)).
Proof.
  intros H Hst. recv_unfold. rewrite bool_decide_eq_false_2 by done.
  cbn. by rewrite Hst.
Qed.

(** Line 147: an exception of the first read leaves [recv]. *)
Lemma recv_prefix_raises t n e s1 x s2 :
  ¬ in_cooldown e →
  sock_settimeout t (conn (self e)) = (Ok (), s1) →
  sock_recv n s1 = (Raise x, s2) →
  recv t n e = (Raise x, put_conn s2 (ticked e)).
Proof.
  intros H Hst H1. recv_unfold. rewrite bool_decide_eq_false_2 by done.
  cbn. rewrite Hst. cbn. by rewrite H1.
Qed.

(** Line 148: an exception of the second read leaves [recv]. *)
Lemma recv_payload_raises t n e s1 p s2 x s3 :
  ¬ in_cooldown e →
  sock_settimeout t (conn (self e)) = (Ok (), s1) →
  sock_recv n s1 = (Ok p, s2) →
  sock_recv (from_bytes p) s2 = (Raise x, s3) →
  recv t n e = (Raise x, put_conn s3 (ticked e)).
Proof.
  intros H Hst H1 H2. recv_unfold. rewrite bool_decide_eq_false_2 by done.
  cbn. rewrite Hst. cbn. rewrite H1. cbn. by rewrite H2.
Qed.

(** Lines 149-151: an empty second read closes and raises. *)
Lemma recv_empty_payload t n e s1 p s2 s3 :
  ¬ in_cooldown e →
  sock_settimeout t (conn (self e)) = (Ok (), s1) →
  sock_recv n s1 = (Ok p, s2) →
  sock_recv (from_bytes p) s2 = (Ok [], s3) →
  recv t n e = (Raise DisconnectedClient, put_conn (shut s3) (ticked e)).
Proof.
  intros H Hst H1 H2. recv_unfold. rewrite bool_decide_eq_false_2 by done.
  cbn. rewrite Hst. cbn. rewrite H1. cbn. rewrite H2. cbn.
  by rewrite close_spec.
Qed.

(** Lines 152-155: a failed decryption raises UnableToDecrypt. *)
Lemma recv_undecryptable t n e s1 p s2 c s3 :
  ¬ in_cooldown e →
  sock_settimeout t (conn (self e)) = (Ok (), s1) →
  sock_recv n s1 = (Ok p, s2) →
  sock_recv (from_bytes p) s2 = (Ok c, s3) →
  c ≠ [] →
  decrypt_aes c (aes_key (self e)) = None →
  recv t n e = (Raise UnableToDecrypt, put_conn s3 (ticked e)).
Proof.
  intros H Hst H1 H2 Hc Hd. recv_unfold. rewrite bool_decide_eq_false_2 by done.
  cbn. rewrite Hst. cbn. rewrite H1. cbn. rewrite H2. cbn.
  rewrite bool_decide_eq_false_2 by done. cbn. by rewrite Hd.
Qed.

(** Lines 156-160: a plaintext that does not start with the client token
    raises InvalidToken. *)
Lemma recv_token_mismatch t n e s1 p s2 c s3 m :
  ¬ in_cooldown e →
  sock_settimeout t (conn (self e)) = (Ok (), s1) →
  sock_recv n s1 = (Ok p, s2) →
  sock_recv (from_bytes p) s2 = (Ok c, s3) →
  c ≠ [] →
  decrypt_aes c (aes_key (self e)) = Some m →
  client_token (self e) ≠ slice_to (len (client_token (self e))) m →
  recv t n e = (Raise InvalidToken, put_conn s3 (ticked e)).
Proof.
  intros H Hst H1 H2 Hc Hd Ht. recv_unfold.
  rewrite bool_decide_eq_false_2 by done.
  cbn. rewrite Hst. cbn. rewrite H1. cbn. rewrite H2. cbn.
  rewrite bool_decide_eq_false_2 by done. cbn. rewrite Hd. cbn.
  by rewrite bool_decide_eq_false_2.
Qed.

(** Lines 156-162: a plaintext that starts with the client token has one
    occurrence of the token replaced, the clock is read into [last_query],
    and the rest is decoded. *)
Lemma recv_token_match t n e s1 p s2 c s3 m :
  ¬ in_cooldown e →
  sock_settimeout t (conn (self e)) = (Ok (), s1) →
  sock_recv n s1 = (Ok p, s2) →
  sock_recv (from_bytes p) s2 = (Ok c, s3) →
  c ≠ [] →
  decrypt_aes c (aes_key (self e)) = Some m →
  client_token (self e) = slice_to (len (client_token (self e))) m →
  recv t n e =
    or_raise (decode (replace (client_token (self e)) [] 1 m))
      UnicodeDecodeError (stamped (put_conn s3 (ticked e))).
Proof.
  intros H Hst H1 H2 Hc Hd Ht. recv_unfold.
  rewrite bool_decide_eq_false_2 by done.
  cbn. rewrite Hst. cbn. rewrite H1. cbn. rewrite H2. cbn.
  rewrite bool_decide_eq_false_2 by done. cbn. rewrite Hd. cbn.
  by rewrite bool_decide_eq_true_2.
Qed.

Lemma or_raise_eq {S A} (o : option A) x (s : S) :
  or_raise o x s = (match o with Some v => Ok v | None => Raise x end, s).
Proof. by destruct o. Qed.

Lemma recv_takes_a_path t n e : 
  recv_path t n e (recv t n e).1 (recv t n e).2.
Proof.
  destruct (decide (in_cooldown e)) as [H | H].
  { rewrite recv_in_cooldown by done. by constructor. }
  destruct (sock_settimeout t (conn (self e))) as [[[]|x] s1] eqn:Hst;
    [| rewrite (recv_settimeout_raises _ _ _ _ _ H Hst); by econstructor].
  destruct (sock_recv n s1) as [[p|x] s2] eqn:H1;
    [| rewrite (recv_prefix_raises _ _ _ _ _ _ H Hst H1); by econstructor].
  destruct (sock_recv (from_bytes p) s2) as [[c|x] s3] eqn:H2;
    [| rewrite (recv_payload_raises _ _ _ _ _ _ _ _ H Hst H1 H2);
       by econstructor].
  destruct (decide (c = [])) as [-> | Hc].
  { rewrite (recv_empty_payload _ _ _ _ _ _ _ H Hst H1 H2). by econstructor. }
  destruct (decrypt_aes c (aes_key (self e))) as [m|] eqn:Hd;
    [| rewrite (recv_undecryptable _ _ _ _ _ _ _ _ H Hst H1 H2 Hc Hd);
       by econstructor].
  destruct (decide (client_token (self e)
                    = slice_to (len (client_token (self e))) m)) as [Ht | Ht].
  - rewrite (recv_token_match _ _ _ _ _ _ _ _ _ H Hst H1 H2 Hc Hd Ht).
    rewrite or_raise_eq. by econstructor.
  - rewrite (recv_token_mismatch _ _ _ _ _ _ _ _ _ H Hst H1 H2 Hc Hd Ht).
    by econstructor.
Qed.

(** The peer has closed and nothing is pending: the connection is closed
    and DisconnectedClient raised. *)
Lemma recv_peer_closed t n e :
  ¬ in_cooldown e → closed (conn (self e)) = false → valid_timeout t →
  rx (conn (self e)) = [] → granted (conn (self e)) n →
  ∃ e', recv t n e = (Raise DisconnectedClient, e') ∧
        closed (conn (self e')) = true.
Proof.
  intros H Hc Ht Hrx Hg.
  pose proof (sock_settimeout_open t _ Hc Ht) as Hst.
  set (s1 := {| closed := false; timeout := t; rx := rx (conn (self e));
                tx := tx (conn (self e));
                calls := calls (conn (self e)) ++ [OpSetTimeout t];
                memory := memory (conn (self e)) |}) in *.
  assert (∃ s2, sock_recv n s1 = (Ok [], s2)) as [s2 H1].
  { rewrite sock_recv_eof by done. by eexists. }
  pose proof (sock_recv_zero s2) as H2.
  eexists. split; [by eapply recv_empty_payload | done].
Qed.

Lemma recv_inv t n e r e' : recv t n e = (r, e') → recv_path t n e r e'.
Proof. intros H. pose proof (recv_takes_a_path t n e) as P. by rewrite H in P. Qed.

End Session.

(* ===================================================================== *)
(** ** The session: cooldown, disconnection, content errors               *)
(* ===================================================================== *)

Lemma sock_settimeout_raises t s x s1 :
  sock_settimeout t s = (Raise x, s1) → x = ValueError ∨ is_OSError x = true.
Proof.
  unfold sock_settimeout. cbn. destruct t as [v|], (closed s); cbn;
    try destruct (Z.ltb_spec v 0); intros Heq; inversion Heq; auto.
Qed.

Lemma rx_read_raises n evs x evs' :
  rx_read n evs = (Raise x, evs') → is_OSError x = true.
Proof.
  induction evs as [|[[|y d]|y] evs IH]; cbn [rx_read]; intros Heq;
    try (by inversion Heq); by apply IH.
Qed.

Lemma sock_recv_raises n s x s1 :
  sock_recv n s = (Raise x, s1) → is_OSError x = true ∨ buffer_raises x.
Proof.
  unfold sock_recv, buffer_raises.
  destruct (max_bytes <? n); [intros [= <- _]; auto |].
  destruct (memory s <? n); [intros [= <- _]; auto |].
  destruct (n =? 0); [| destruct (closed s)];
    [| | destruct (rx_read n (rx s)) as [[d|y] evs] eqn:E];
    intros Heq; inversion Heq; subst; [by left |].
  left. by eapply rx_read_raises.
Qed.

Section SessionClaims.
Context {crypt : Crypt}.

(** The exceptions of the socket calls are not among those [recv] raises
    itself. *)
Lemma socket_error_not_too_many x :
  x = ValueError ∨ is_OSError x = true ∨ buffer_raises x →
  Raise (A := str) x ≠ Raise TooManyQueries.
Proof. intros [-> | [Hx | [-> | ->]]] [= ->]; done. Qed.

Ltac socket_calls :=
  repeat match goal with
    | H : sock_settimeout _ _ = _ |- _ =>
        apply sock_settimeout_calls in H as (_ & H & _)
    | H : sock_recv _ _ = _ |- _ => apply sock_recv_calls in H as (_ & H & _)
    end;
  cbn;
  repeat match goal with
    | H : calls _ = _ |- _ => rewrite H; clear H
    end;
  rewrite <-?app_assoc.

(** Past the cooldown check [recv] does not raise TooManyQueries, and its
    first call on the socket is [settimeout]. *)
Lemma recv_past_gate (t : option Z) (n : N) (e : Env) r e' :
  ¬ in_cooldown e →
  recv t n e = (r, e') →
  r ≠ Raise TooManyQueries ∧
  ∃ rest, calls (conn (self e')) =
          calls (conn (self e)) ++ OpSetTimeout t :: rest.
Proof.
  intros H Hr. apply recv_inv in Hr. split.
  - destruct Hr as [Hin | x s1 _ Hst | s1 x s2 _ _ H1 | s1 p s2 x s3 _ _ _ H2
      | | | | s1 p s2 c s3 m r _ _ _ _ _ _ _ ->]; try done.
    + apply socket_error_not_too_many.
      apply sock_settimeout_raises in Hst as [-> | Hx]; auto.
    + apply socket_error_not_too_many. right. by eapply sock_recv_raises.
    + apply socket_error_not_too_many. right. by eapply sock_recv_raises.
    + by destruct (decode _).
  - destruct Hr; [done | ..]; socket_calls; by eexists.
Qed.

(** What a call of [recv] may change besides the socket: the clock is read
    once and [last_query] kept, or it is read twice and the second reading
    stored in [last_query]. *)
Lemma recv_frame_condition (t : option Z) (n : N) (e : Env) r e' :
  recv t n e = (r, e') →
  ticks (clock e') = ticks (clock e) ∧
  query_cooldown (self e') = query_cooldown (self e) ∧
  ((last_query (self e') = last_query (self e) ∧
    reads (clock e') = S (reads (clock e))) ∨
   (last_query (self e') = ticks (clock e) (S (reads (clock e))) ∧
    reads (clock e') = S (S (reads (clock e))))).
Proof.
  intros Hr. apply recv_inv in Hr.
  inversion Hr; subst; cbn; (split; [done |]); (split; [done |]);
    first [by left | by right].
Qed.

(** C7.  Past the cooldown check and [settimeout], when the read of the
    length prefix returns [p] and then either [p] is empty (the peer closed
    at the length-prefix boundary: the empty prefix is length 0 and the read
    of 0 bytes is empty too) or the read of the payload returns no bytes,
    [recv] closes the connection, by [shutdown] and [close] on the socket,
    and raises DisconnectedClient. *)
Theorem recv_disconnected (t : option Z) (n : N) (e : Env) s1 p s2 :
  ¬ in_cooldown e →
  sock_settimeout t (conn (self e)) = (Ok (), s1) →
  sock_recv n s1 = (Ok p, s2) →
  p = [] ∨ (sock_recv (from_bytes p) s2).1 = Ok [] →
  ∃ e', recv t n e = (Raise DisconnectedClient, e') ∧
        closed (conn (self e')) = true ∧
        ∃ got, calls (conn (self e')) =
               calls s2 ++ [OpRecv (from_bytes p) got; OpShutdown; OpClose].
Proof.
  intros H Hst H1 Hz.
  assert ((sock_recv (from_bytes p) s2).1 = Ok []) as H2.
  { destruct Hz as [-> | Hz]; [| done].
    change (from_bytes []) with 0. by rewrite sock_recv_zero. }
  destruct (sock_recv (from_bytes p) s2) as [r s3] eqn:E. cbn in H2. subst r.
  eexists. split; [by eapply recv_empty_payload |]. cbn. split; [done |].
  apply sock_recv_calls in E as (_ & -> & _). rewrite <-app_assoc. by eexists.
Qed.

(** C8.  When [recv] raises UnableToDecrypt or InvalidToken the socket is
    open as before, the only calls made on it are [settimeout] and the two
    reads, and the tokens, the key, the timestamp and the cooldown of the
    connection are as they were. *)
Theorem recv_content_error_keeps_connection (t : option Z) (n : N) (e : Env)
  x e' :
  recv t n e = (Raise x, e') →
  x = UnableToDecrypt ∨ x = InvalidToken →
  closed (conn (self e)) = false ∧ closed (conn (self e')) = false ∧
  (∃ p c, calls (conn (self e')) =
          calls (conn (self e)) ++
          [OpSetTimeout t; OpRecv n (Some p); OpRecv (from_bytes p) (Some c)]) ∧
  client_token (self e') = client_token (self e) ∧
  server_token (self e') = server_token (self e) ∧
  aes_key (self e') = aes_key (self e) ∧
  last_query (self e') = last_query (self e) ∧
  query_cooldown (self e') = query_cooldown (self e).
Proof.
  intros Hr Hx. apply recv_inv in Hr.
  assert (∀ s1 p s2 c s3,
    sock_settimeout t (conn (self e)) = (Ok (), s1) →
    sock_recv n s1 = (Ok p, s2) →
    sock_recv (from_bytes p) s2 = (Ok c, s3) →
    closed (conn (self e)) = false ∧ closed s3 = false ∧
    calls s3 = calls (conn (self e)) ++
      [OpSetTimeout t; OpRecv n (Some p); OpRecv (from_bytes p) (Some c)])
    as Hopen.
  { intros s1 p s2 c s3 Hst H1 H2.
    apply sock_settimeout_ok in Hst as (Hc & _ & ->).
    apply sock_recv_calls in H1 as (Hc1 & Hl1 & _).
    apply sock_recv_calls in H2 as (Hc2 & Hl2 & _).
    cbn in *. rewrite Hc2, Hc1, Hl2, Hl1, <-!app_assoc. done. }
  inversion Hr as [Hin | y s1 _ Hst | s1 y s2 _ Hst H1 | s1 p s2 y s3 _ Hst H1 H2
      | s1 p s2 s3 _ Hst H1 H2 | s1 p s2 c s3 _ Hst H1 H2 _ _
      | s1 p s2 c s3 m _ Hst H1 H2 _ _ _ | s1 p s2 c s3 m r _ Hst H1 H2 _ _ _ Hdec];
    subst.
  - by destruct Hx.
  - apply sock_settimeout_raises in Hst. by destruct Hx as [-> | ->], Hst.
  - apply sock_recv_raises in H1.
    by destruct Hx as [-> | ->], H1 as [? | [? | ?]].
  - apply sock_recv_raises in H2.
    by destruct Hx as [-> | ->], H2 as [? | [? | ?]].
  - by destruct Hx.
  - destruct (Hopen _ _ _ _ _ Hst H1 H2) as (? & ? & ?). cbn.
    repeat split; try done. by exists p, c.
  - destruct (Hopen _ _ _ _ _ Hst H1 H2) as (? & ? & ?). cbn.
    repeat split; try done. by exists p, c.
  - destruct (decode _); [done |]. injection Hdec as ->. by destruct Hx.
Qed.

(** C4 (amended).  After a successful decryption to [m]: when the first
    [len client_token] bytes of [m] are not the client token, [recv] raises
    InvalidToken, returning nothing and leaving the timestamp; when they
    are, exactly that prefix is removed, whatever [m] holds after it, the
    clock is read into [last_query], and the rest is decoded as UTF-8: it
    is returned as a string when it is valid UTF-8, and UnicodeDecodeError
    is raised when it is not. *)
Theorem recv_token_check (t : option Z) (n : N) (e : Env) s1 p s2 c s3 m :
  ¬ in_cooldown e →
  sock_settimeout t (conn (self e)) = (Ok (), s1) →
  sock_recv n s1 = (Ok p, s2) →
  sock_recv (from_bytes p) s2 = (Ok c, s3) →
  c ≠ [] →
  decrypt_aes c (aes_key (self e)) = Some m →
  let token := client_token (self e) in
  let rest := slice_from (len token) m in
  (token ≠ slice_to (len token) m →
     ∃ e', recv t n e = (Raise InvalidToken, e') ∧
           last_query (self e') = last_query (self e)) ∧
  (token = slice_to (len token) m →
     m = token ++ rest ∧
     ∃ e', recv t n e = (match decode rest with
                         | Some v => Ok v
                         | None => Raise UnicodeDecodeError
                         end, e') ∧
           last_query (self e') = now (ticked e)).
Proof.
  intros H Hst H1 H2 Hc Hd token rest. split; intros Ht.
  - eexists. split; [by eapply recv_token_mismatch | done].
  - pose proof (slice_to_eq_prefix _ _ Ht) as Hm. split; [done |].
    exists (stamped (put_conn s3 (ticked e))). split; [| reflexivity].
    erewrite recv_token_match by done. rewrite or_raise_eq.
    fold token. rewrite Hm at 1. fold rest. by rewrite replace_prefix.
Qed.

(** Past a non-empty second read, [recv] makes no further call on the
    socket. *)
Lemma recv_after_reads (t : option Z) (n : N) (e : Env) s1 p s2 c s3 r e' :
  ¬ in_cooldown e →
  sock_settimeout t (conn (self e)) = (Ok (), s1) →
  sock_recv n s1 = (Ok p, s2) →
  sock_recv (from_bytes p) s2 = (Ok c, s3) →
  c ≠ [] →
  recv t n e = (r, e') →
  conn (self e') = s3.
Proof.
  intros H Hst H1 H2 Hc Hr.
  destruct (decrypt_aes c (aes_key (self e))) as [m|] eqn:Hd.
  - destruct (decide (client_token (self e)
                      = slice_to (len (client_token (self e))) m)) as [Ht | Ht].
    + erewrite recv_token_match, or_raise_eq in Hr by done.
      by injection Hr as _ <-.
    + erewrite recv_token_mismatch in Hr by done. by injection Hr as _ <-.
  - erewrite recv_undecryptable in Hr by done. by injection Hr as _ <-.
Qed.

(** C5 (amended).  A [recv] past the cooldown check, on an open socket and
    with a timeout that [settimeout] accepts, makes one read asking for
    [number_size] bytes and, when that returns [p], one read asking for
    [from_bytes p] bytes; a read returns at most what it asked for; nothing
    else is called on the socket but [settimeout] before and, after an
    empty second read, [shutdown] and [close].  When the prefix and the
    ciphertext it announces have arrived together, and the interpreter can
    allocate a buffer of either size, the two reads return exactly the
    [number_size] bytes of the prefix and exactly the ciphertext. *)
Theorem recv_reads (t : option Z) (n : N) (e : Env) r e' :
  ¬ in_cooldown e →
  closed (conn (self e)) = false →
  valid_timeout t →
  recv t n e = (r, e') →
  (∃ got1 tail,
     calls (conn (self e')) =
       calls (conn (self e)) ++ OpSetTimeout t :: OpRecv n got1 :: tail ∧
     match got1 with
     | None => tail = []
     | Some p =>
         len p ≤ n ∧
         ∃ got2 tail2,
           tail = OpRecv (from_bytes p) got2 :: tail2 ∧
           match got2 with
           | None => tail2 = []
           | Some c =>
               len c ≤ from_bytes p ∧
               tail2 = if bool_decide (c = []) then [OpShutdown; OpClose]
                       else []
           end
     end) ∧
  (∀ p c more evs,
     rx (conn (self e)) = RxData (p ++ c ++ more) :: evs →
     len p = n → n ≠ 0 → from_bytes p = len c → c ≠ [] →
     granted (conn (self e)) n → granted (conn (self e)) (len c) →
     ∃ tail, calls (conn (self e')) =
               calls (conn (self e)) ++
               OpSetTimeout t :: OpRecv n (Some p)
               :: OpRecv (len c) (Some c) :: tail).
Proof.
  intros H Hc Ht Hr.
  pose proof (sock_settimeout_open t _ Hc Ht) as Hst.
  set (s1 := {| closed := false; timeout := t; rx := rx (conn (self e));
                tx := tx (conn (self e));
                calls := calls (conn (self e)) ++ [OpSetTimeout t];
                memory := memory (conn (self e)) |}) in *.
  destruct (sock_recv n s1) as [r1 s2] eqn:H1.
  pose proof (sock_recv_calls _ _ _ _ H1) as (_ & Hl1 & _).
  assert (calls s2 = calls (conn (self e)) ++ [OpSetTimeout t; OpRecv n (got_of r1)])
    as Hl1' by (rewrite Hl1; cbn; by rewrite <-app_assoc).
  split.
  - exists (got_of r1). destruct r1 as [p|x].
    + destruct (sock_recv (from_bytes p) s2) as [r2 s3] eqn:H2.
      pose proof (sock_recv_calls _ _ _ _ H2) as (_ & Hl2 & _).
      pose proof (sock_recv_len _ _ _ _ H1) as Hlen1.
      destruct r2 as [c|x].
      * pose proof (sock_recv_len _ _ _ _ H2) as Hlen2.
        assert (calls (conn (self e')) = calls s3 ++
                  if bool_decide (c = []) then [OpShutdown; OpClose] else [])
          as Hl3.
        { case_bool_decide as Hnil.
          - subst c. erewrite recv_empty_payload in Hr by done.
            by injection Hr as _ <-.
          - rewrite app_nil_r. f_equal. by eapply recv_after_reads. }
        eexists. split.
        { rewrite Hl3, Hl2, Hl1', <-!app_assoc. cbn. reflexivity. }
        cbn. split; [done |]. eexists _, _. split; [reflexivity |].
        cbn. split; done.
      * erewrite recv_payload_raises in Hr by done. injection Hr as _ <-.
        eexists. split.
        { cbn. rewrite Hl2, Hl1', <-!app_assoc. cbn. reflexivity. }
        cbn. split; [done |]. eexists _, _. split; [reflexivity |]. done.
    + erewrite recv_prefix_raises in Hr by done. injection Hr as _ <-.
      exists []. cbn. by rewrite Hl1'.
  - intros p c more evs Hrx Hp Hn Hpc Hcn Hg1 Hg2.
    rewrite (sock_recv_data n s1 p (c ++ more) evs eq_refl Hn Hp Hrx Hg1) in H1.
    injection H1 as <- <-.
    pose proof (sock_recv_data n s1 p (c ++ more) evs eq_refl Hn Hp Hrx Hg1)
      as H1.
    set (s2 := logged _ _) in *.
    rewrite <-Hpc in Hg2.
    assert (from_bytes p ≠ 0) as Hn2.
    { rewrite Hpc. intros Hz. by apply len_zero in Hz. }
    assert (rx s2 = RxData (c ++ more) :: evs) as Hrx2.
    { subst s2. cbn. destruct c; [done |]. done. }
    pose proof (sock_recv_data (from_bytes p) s2 c more evs eq_refl Hn2
                  (eq_sym Hpc) Hrx2 Hg2) as H2.
    set (s3 := logged _ _) in H2.
    assert (calls s3 = calls (conn (self e)) ++
              [OpSetTimeout t; OpRecv n (Some p); OpRecv (len c) (Some c)])
      as Hl3.
    { subst s3 s2. cbn. rewrite Hpc, <-!app_assoc. done. }
    rewrite (recv_after_reads _ _ _ _ _ _ _ _ _ _ H Hst H1 H2 Hcn Hr), Hl3.
    by exists [].
Qed.

End SessionClaims.

(* ===================================================================== *)
(** ** [Connection.send] and the round trip                               *)
(* ===================================================================== *)




Section Transfer.
Context {crypt : Crypt}.

#[local] Arguments encode : simpl never.
#[local] Arguments to_bytes : simpl never.
#[local] Arguments len : simpl never.
#[local] Arguments sock_send : simpl never.
#[local] Arguments close : simpl never.
#[local] Arguments shut : simpl never.

Ltac send_unfold :=
  unfold send, mbind, M_bind, attr, try_except, raise, on_conn; cbn.


(** Lines 130-132: a write that raises closes the connection and raises
    DisconnectedClient. *)
Lemma send_disconnected msg n e data p x s1 :
  encode msg = Some data →
  to_bytes (len (encrypt_aes (server_token (self e) ++ data)
                   (aes_key (self e)))) n = Some p →
  sock_send (p ++ encrypt_aes (server_token (self e) ++ data)
                    (aes_key (self e))) (conn (self e)) = (Raise x, s1) →
  send msg n e = (Raise DisconnectedClient, put_conn (shut s1) e).
Proof.
  intros He Hp Hs. send_unfold. rewrite He. cbn. rewrite Hp. cbn.
  rewrite Hs, (sock_send_raises _ _ _ _ Hs). cbn. by rewrite close_spec.
Qed.

(** A call of [send] changes neither the clock nor any attribute of the
    connection but its socket. *)
Lemma send_frame_condition msg n e r e' :
  send msg n e = (r, e') →
  clock e' = clock e ∧ ∃ s, self e' = with_conn s (self e).
Proof.
  send_unfold. destruct (encode msg) as [data|]; cbn.
  2: { intros [= <- <-]. split; [done |]. exists (conn (self e)).
       by destruct e as [[]]. }
  destruct (to_bytes _ n) as [p|]; cbn.
  2: { intros [= <- <-]. split; [done |]. exists (conn (self e)).
       by destruct e as [[]]. }
  destruct (sock_send _ _) as [[[]|x] s1] eqn:Hs; cbn.
  - intros [= <- <-]. split; [done |]. by eexists.
  - rewrite (sock_send_raises _ _ _ _ Hs), close_spec. cbn.
    intros [= <- <-]. split; [done |]. by eexists.
Qed.



End Transfer.

Lemma send_never_too_many {crypt : Crypt} msg n e r e' :
  send msg n e = (r, e') → r ≠ Raise TooManyQueries.
Proof.
  unfold send, mbind, M_bind, attr, try_except, raise, on_conn. cbn.
  destruct (encode msg) as [data|]; cbn; [| by intros [= <- _]].
  destruct (to_bytes _ n) as [p|]; cbn; [| by intros [= <- _]].
  destruct (sock_send _ _) as [[[]|x] s1] eqn:Hs; cbn; [by intros [= <- _] |].
  rewrite (sock_send_raises _ _ _ _ Hs), close_spec. cbn. by intros [= <- _].
Qed.

(* ===================================================================== *)
(** ** The cooldown                                                       *)
(* ===================================================================== *)

Section Cooldown.
Context {crypt : Crypt}.

(** Past the cooldown check, on an open socket and with a timeout that
    [settimeout] accepts, the read of the length prefix is made. *)
Lemma recv_past_gate_reads (t : option Z) (n : N) (e : Env) r e' :
  ¬ in_cooldown e → closed (conn (self e)) = false → valid_timeout t →
  recv t n e = (r, e') →
  ∃ got tail, calls (conn (self e')) =
              calls (conn (self e)) ++ OpSetTimeout t :: OpRecv n got :: tail.
Proof.
  intros H Hopen Ht Hr. apply recv_inv in Hr.
  pose proof (sock_settimeout_open t _ Hopen Ht) as Hst0.
  destruct Hr as [Hin | x s1 _ Hst | s1 x s2 _ Hst H1 | s1 p s2 x s3 _ Hst H1 H2
    | s1 p s2 s3 _ Hst H1 H2 | s1 p s2 c s3 _ Hst H1 H2 _ _
    | s1 p s2 c s3 m _ Hst H1 H2 _ _ _ | s1 p s2 c s3 m r _ Hst H1 H2 _ _ _ _];
    [done | by rewrite Hst0 in Hst | ..];
    repeat match goal with
      | H : sock_settimeout _ _ = _ |- _ =>
          apply sock_settimeout_calls in H as (_ & H & _)
      | H : sock_recv _ _ = _ |- _ => apply sock_recv_calls in H as (_ & H & _)
      end;
    cbn;
    repeat match goal with
      | H : calls _ = _ |- _ => rewrite H; clear H
      end;
    rewrite <-?app_assoc; cbn; by eexists _, _.
Qed.

(** C6 (amended).  The cooldown is counted from [last_query]: a [recv]
    whose clock reading is less than [query_cooldown] after [last_query]
    raises TooManyQueries at once, with no call made on the socket and the
    connection object left as it was; any other [recv] does not raise
    TooManyQueries and goes on to the socket, with [settimeout] and, when
    the socket is open and the timeout one that [settimeout] accepts, the
    read of [number_size] bytes.  And [last_query] is the time of the last
    [recv] that passed the token check: the calls that write it are the
    [recv] that returns and the [recv] that raises UnicodeDecodeError on
    its last line, which store their second clock reading; every other
    call leaves it as it was. *)
Theorem recv_cooldown_gate (t : option Z) (n : N) (e : Env) :
  (in_cooldown e →
     ∃ e', recv t n e = (Raise TooManyQueries, e') ∧ self e' = self e) ∧
  (¬ in_cooldown e →
     ∀ r e', recv t n e = (r, e') →
       r ≠ Raise TooManyQueries ∧
       ∃ rest, calls (conn (self e')) =
                 calls (conn (self e)) ++ OpSetTimeout t :: rest ∧
               (closed (conn (self e)) = false → valid_timeout t →
                ∃ got tail, rest = OpRecv n got :: tail)) ∧
  (∀ c o e', call c e = (o, e') →
     last_query (self e') =
       if accepted c o then now (ticked e) else last_query (self e)).
Proof.
  split; [| split].
  - intros H. exists (ticked e). by rewrite recv_in_cooldown.
  - intros H r e' Hr.
    destruct (recv_past_gate _ _ _ _ _ H Hr) as [Hne [rest Hcalls]].
    split; [done |]. exists rest. split; [done |]. intros Hopen Ht.
    destruct (recv_past_gate_reads _ _ _ _ _ H Hopen Ht Hr)
      as (got & tail & Hcalls').
    rewrite Hcalls in Hcalls'. apply app_inv_head in Hcalls'.
    injection Hcalls' as ->. by exists got, tail.
  - intros c o e' Hcall. destruct c as [msg m | t' m | v |]; cbn in Hcall.
    + destruct (send msg m e) as [r e1] eqn:Hs. injection Hcall as <- <-.
      by apply send_frame_condition in Hs as (_ & s & ->).
    + destruct (recv t' m e) as [r e1] eqn:Hr. injection Hcall as <- <-.
      apply recv_inv in Hr.
      destruct Hr as [Hin | x s1 _ Hst | s1 x s2 _ Hst H1
        | s1 p s2 x s3 _ Hst H1 H2
        | | | | s1 p s2 c s3 m0 r _ Hst H1 H2 _ _ _ ->]; cbn; try done.
      * apply sock_settimeout_raises in Hst as [-> | Hx]; [done |].
        by destruct x.
      * apply sock_recv_raises in H1 as [Hx | [-> | ->]]; [| done | done].
        by destruct x.
      * apply sock_recv_raises in H2 as [Hx | [-> | ->]]; [| done | done].
        by destruct x.
      * by destruct (decode _).
    + by injection Hcall as <- <-.
    + rewrite close_spec in Hcall. by injection Hcall as <- <-.
Qed.

End Cooldown.

(* ===================================================================== *)
(** ** A connection that never had a positive cooldown                    *)
(* ===================================================================== *)

Section NoCooldown.
Context {crypt : Crypt}.

Lemma unlimited_not_in_cooldown k e : unlimited k e → ¬ in_cooldown e.
Proof.
  intros (Hk & Hcd & Hlast). unfold in_cooldown, now, clock_time. cbn.
  rewrite Hk. lia.
Qed.

Lemma call_unlimited k c e o e' :
  monotone k → no_positive_cooldown c → unlimited k e →
  call c e = (o, e') →
  o ≠ Raised TooManyQueries ∧ unlimited k e'.
Proof.
  intros [_ Hmono] Hc Hinv Hcall.
  pose proof Hinv as (Hk & Hcd & Hlast).
  destruct c as [msg n | t n | v |]; cbn in Hcall.
  - destruct (send msg n e) as [r e1] eqn:Hs. injection Hcall as <- <-.
    pose proof (send_never_too_many _ _ _ _ _ Hs) as Hr.
    apply send_frame_condition in Hs as (Hclk & s & Hself). split.
    + destruct r; cbn; [done | by intros [= ->]].
    + unfold unlimited. by rewrite Hclk, Hself.
  - destruct (recv t n e) as [r e1] eqn:Hr. injection Hcall as <- <-.
    pose proof (recv_past_gate _ _ _ _ _ (unlimited_not_in_cooldown _ _ Hinv) Hr)
      as [Hne _].
    apply recv_frame_condition in Hr as (Hticks & Hcd' & Hq). split.
    + destruct r; cbn; [done | by intros [= ->]].
    + unfold unlimited. rewrite Hticks, Hcd'. split; [done |]. split; [done |].
      destruct Hq as [[-> ->] | [-> ->]].
      * etrans; [exact Hlast |]. apply Hmono. lia.
      * rewrite Hk. apply Hmono. lia.
  - injection Hcall as <- <-. split; [done |]. unfold unlimited. cbn.
    by cbn in Hc.
  - rewrite close_spec in Hcall. injection Hcall as <- <-. by split.
Qed.

Lemma run_unlimited k cs e :
  monotone k → Forall no_positive_cooldown cs → unlimited k e →
  Raised TooManyQueries ∉ (run cs e).1.
Proof.
  intros Hk Hcs. revert e. induction Hcs as [|c cs Hc _ IH]; intros e Hinv.
  - cbn. apply not_elem_of_nil.
  - cbn. destruct (call c e) as [o e1] eqn:Hcall.
    destruct (run cs e1) as [os e2] eqn:Hrun. cbn.
    destruct (call_unlimited _ _ _ _ _ Hk Hc Hinv Hcall) as [Ho Hinv1].
    apply not_elem_of_cons. split; [done |].
    specialize (IH e1 Hinv1). by rewrite Hrun in IH.
Qed.

(** C10 (amended).  A connection as [__init__] leaves it has [last_query]
    0 and [query_cooldown] 0; and in every sequence of calls made on such a
    connection in which no positive cooldown is set, under a clock that
    starts at or after 0 and never runs backwards, no call raises
    TooManyQueries. *)
Theorem fresh_connection_never_limited (sock : Socket)
  (client_token server_token aes_key : bytes) (k : Clock) (cs : list Call) :
  monotone k →
  Forall no_positive_cooldown cs →
  let c := Connection_init sock client_token server_token aes_key in
  last_query c = 0%Z ∧ query_cooldown c = 0%Z ∧
  Raised TooManyQueries ∉ (run cs {| self := c; clock := k |}).1.
Proof.
  intros Hk Hcs c. split; [done |]. split; [done |].
  apply (run_unlimited k); [done | done |].
  split; [done |]. split; [done |]. cbn.
  destruct Hk as [H0 Hmono]. etrans; [exact H0 |]. apply Hmono. lia.
Qed.

End NoCooldown.

(* ===================================================================== *)
(** ** [Server.key_exchange]                                              *)
(* ===================================================================== *)

Section Handshake.
Context {crypt : Crypt}.

Lemma try_except_ok {S A} (m : M S A) handles (h : M S A) s a s' :
  m s = (Ok a, s') → try_except m handles h s = (Ok a, s').
Proof. intros H. unfold try_except. by rewrite H. Qed.

Lemma try_except_handled {S A} (m : M S A) handles (h : M S A) s x s' :
  m s = (Raise x, s') → handles x = true → try_except m handles h s = h s'.
Proof. intros H Hx. unfold try_except. by rewrite H, Hx. Qed.

Lemma on_raw_inv {A} (m : M Socket A) e r e' :
  on_raw m e = (r, e') →
  ∃ s, m (hs_conn e) = (r, s) ∧
       e' = {| hs_conn := s; hs_entropy := hs_entropy e |}.
Proof.
  unfold on_raw. destruct (m (hs_conn e)) as [r0 s] eqn:E.
  intros [= <- <-]. by exists s.
Qed.

Lemma draw_inv {A} (g : Entropy → A * Entropy) e r e' :
  draw g e = (r, e') →
  r = Ok (g (hs_entropy e)).1 ∧
  e' = {| hs_conn := hs_conn e; hs_entropy := (g (hs_entropy e)).2 |}.
Proof.
  unfold draw. destruct (g (hs_entropy e)) as [a r0]. by intros [= <- <-].
Qed.

(** What the steps of the handshake have done when all have succeeded. *)
Lemma key_exchange_steps_ok srv anchor tsize e token server_token aes_key e' :
  key_exchange_steps srv anchor tsize e
    = (Ok (token, server_token, aes_key), e') →
  let g1 := generate_aes 32 (hs_entropy e) in
  let g2 := get_random_bytes tsize g1.2 in
  ∃ pub priv data1 public data2,
    aes_key = g1.1 ∧ server_token = g2.1 ∧ hs_entropy e' = g2.2 ∧
    claves srv !! "PUBLIC" = Some pub ∧
    claves srv !! "PRIVATE" = Some priv ∧
    decrypt_rsa data1 priv ≫= decode = Some public ∧
    decrypt_rsa data2 priv = Some token ∧
    closed (hs_conn e') = closed (hs_conn e) ∧
    calls (hs_conn e') =
      calls (hs_conn e) ++
      [OpSend pub; OpRecv anchor (Some data1);
       OpSend (encrypt_rsa server_token public);
       OpRecv anchor (Some data2); OpSend (encrypt_rsa aes_key public)].
Proof.
  intros H g1 g2. unfold key_exchange_steps, clave in H.
  apply bind_inv_ok in H as (k & e1 & Hg1 & H).
  apply draw_inv in Hg1 as [[= ->] ->].
  apply bind_inv_ok in H as (pub & e2 & Hpub & H).
  apply or_raise_inv_ok in Hpub as [Hpub ->].
  apply bind_inv_ok in H as ([] & e3 & Hs1 & H).
  apply on_raw_inv in Hs1 as (s1 & Hs1 & ->).
  apply bind_inv_ok in H as (data1 & e4 & Hr1 & H).
  apply on_raw_inv in Hr1 as (s2 & Hr1 & ->).
  apply bind_inv_ok in H as (priv & e5 & Hpriv & H).
  apply or_raise_inv_ok in Hpriv as [Hpriv ->].
  apply bind_inv_ok in H as (plain & e6 & Hd1 & H).
  apply or_raise_inv_ok in Hd1 as [Hd1 ->].
  apply bind_inv_ok in H as (public & e7 & Hdec & H).
  apply or_raise_inv_ok in Hdec as [Hdec ->].
  apply bind_inv_ok in H as (stok & e8 & Hg2 & H).
  apply draw_inv in Hg2 as [[= ->] ->].
  apply bind_inv_ok in H as ([] & e9 & Hs2 & H).
  apply on_raw_inv in Hs2 as (s3 & Hs2 & ->).
  apply bind_inv_ok in H as (data2 & e10 & Hr2 & H).
  apply on_raw_inv in Hr2 as (s4 & Hr2 & ->).
  apply bind_inv_ok in H as (priv' & e11 & Hpriv' & H).
  apply or_raise_inv_ok in Hpriv' as [Hpriv' ->].
  rewrite Hpriv in Hpriv'. injection Hpriv' as <-.
  apply bind_inv_ok in H as (tok & e12 & Hd2 & H).
  apply or_raise_inv_ok in Hd2 as [Hd2 ->].
  apply bind_inv_ok in H as ([] & e13 & Hs3 & H).
  apply on_raw_inv in Hs3 as (s5 & Hs3 & ->).
  injection H as <- <- <- <-. cbn in *.
  apply sock_send_calls in Hs1 as (Hc1 & Hl1 & _).
  apply sock_recv_calls in Hr1 as (Hc2 & Hl2 & _).
  apply sock_send_calls in Hs2 as (Hc3 & Hl3 & _).
  apply sock_recv_calls in Hr2 as (Hc4 & Hl4 & _).
  apply sock_send_calls in Hs3 as (Hc5 & Hl5 & _).
  exists pub, priv, data1, public, data2. repeat split; try done.
  - rewrite Hd1. exact Hdec.
  - congruence.
  - rewrite Hl5, Hl4, Hl3, Hl2, Hl1, <-!app_assoc. done.
Qed.

(** C2.  A [key_exchange] that returns a connection has made on the raw
    connection, after [settimeout], exactly these calls in this order: send
    the server's public key as it is; receive, the data being decrypted with
    the server's private key and decoded to the client's public key; send
    the server token encrypted under the client's public key; receive, the
    data being decrypted with the server's private key to the client token;
    send the symmetric key encrypted under the client's public key.  The
    symmetric key and then the server token, of [token_size] bytes, are
    drawn from the entropy in this call, and the connection returned holds
    the raw connection, still open, in [conn], the client token received in
    [client_token], the server token sent in [server_token] and the key sent
    in [aes_key], with no timestamp and no cooldown yet. *)
Theorem key_exchange_protocol (srv : Server) (t : option Z)
  (tunnel_anchor token_size : N) (e : HsEnv) (c : Connection) (e' : HsEnv) :
  random_bytes_sized crypt →
  key_exchange srv t tunnel_anchor token_size e = (Ok c, e') →
  let g1 := generate_aes 32 (hs_entropy e) in
  let g2 := get_random_bytes token_size g1.2 in
  let key := g1.1 in
  let stoken := g2.1 in
  ∃ pub priv data1 public data2 token,
    claves srv !! "PUBLIC" = Some pub ∧
    claves srv !! "PRIVATE" = Some priv ∧
    calls (hs_conn e') =
      calls (hs_conn e) ++
      [OpSetTimeout t;
       OpSend pub;
       OpRecv tunnel_anchor (Some data1);
       OpSend (encrypt_rsa stoken public);
       OpRecv tunnel_anchor (Some data2);
       OpSend (encrypt_rsa key public)] ∧
    decrypt_rsa data1 priv ≫= decode = Some public ∧
    decrypt_rsa data2 priv = Some token ∧
    len stoken = token_size ∧
    hs_entropy e' = g2.2 ∧
    closed (hs_conn e') = false ∧
    conn c = hs_conn e' ∧
    client_token c = token ∧
    server_token c = stoken ∧
    aes_key c = key ∧
    last_query c = 0%Z ∧
    query_cooldown c = 0%Z.
Proof.
  intros Hsized H g1 g2 key stoken. unfold key_exchange in H.
  apply bind_inv_ok in H as ([] & e1 & Hst & H).
  apply on_raw_inv in Hst as (s1 & Hst & ->).
  apply sock_settimeout_ok in Hst as (Hopen & _ & ->).
  apply bind_inv_ok in H as ([[tok stok] akey] & e2 & Htry & H).
  unfold try_except in Htry.
  destruct (key_exchange_steps _ _ _ _) as [[v|x] e3] eqn:Hsteps.
  2: { unfold mbind, M_bind, on_raw, raise in Htry. cbn in Htry. done. }
  injection Htry as -> ->.
  apply key_exchange_steps_ok in Hsteps
    as (pub & priv & data1 & public & data2 & -> & -> & Hent & Hpub & Hpriv
        & Hd1 & Hd2 & Hcl & Hcalls).
  cbn in H. injection H as <- <-. cbn in *.
  exists pub, priv, data1, public, data2, tok. repeat split; try done.
  - rewrite Hcalls, <-app_assoc. done.
  - apply Hsized.
Qed.

(** C3.  When a step of the handshake raises, whatever the exception,
    [key_exchange] calls [close] on the raw connection as its last call on
    it and raises KeyExchangeFailed: no connection is returned, and nothing
    of what the steps had obtained. *)
Theorem key_exchange_failure (srv : Server) (t : option Z)
  (tunnel_anchor token_size : N) (e e1 e2 : HsEnv) (x : exn) :
  on_raw (sock_settimeout t) e = (Ok (), e1) →
  key_exchange_steps srv tunnel_anchor token_size e1 = (Raise x, e2) →
  ∃ e', key_exchange srv t tunnel_anchor token_size e
          = (Raise KeyExchangeFailed, e') ∧
        closed (hs_conn e') = true ∧
        calls (hs_conn e') = calls (hs_conn e2) ++ [OpClose] ∧
        hs_entropy e' = hs_entropy e2.
Proof.
  intros Hst Hsteps. unfold key_exchange.
  rewrite (bind_ok _ _ _ _ _ Hst).
  assert (try_except (key_exchange_steps srv tunnel_anchor token_size)
            (λ _, true) (on_raw sock_close;; raise KeyExchangeFailed) e1
          = (Raise KeyExchangeFailed,
             {| hs_conn := (sock_close (hs_conn e2)).2;
                hs_entropy := hs_entropy e2 |})) as Htry.
  { by erewrite try_except_handled. }
  rewrite (bind_raise _ _ _ _ _ Htry). by eexists.
Qed.

(** The call of [settimeout] is before the [try]: its exception, for a
    negative timeout or a socket already closed, leaves [key_exchange] as it
    is, and [close] is not called. *)
Lemma key_exchange_settimeout_raises (srv : Server) (t : option Z)
  (tunnel_anchor token_size : N) (e e1 : HsEnv) (x : exn) :
  on_raw (sock_settimeout t) e = (Raise x, e1) →
  key_exchange srv t tunnel_anchor token_size e = (Raise x, e1) ∧
  (x = ValueError ∨ is_OSError x = true) ∧
  calls (hs_conn e1) = calls (hs_conn e) ++ [OpSetTimeout t].
Proof.
  intros Hst. unfold key_exchange. rewrite (bind_raise _ _ _ _ _ Hst).
  split; [done |]. apply on_raw_inv in Hst as (s & Hst & ->). cbn.
  split; [by eapply sock_settimeout_raises |].
  by apply sock_settimeout_calls in Hst as (_ & -> & _).
Qed.

End Handshake.

(* ===================================================================== *)
(** ** The small provider keeps the contracts                             *)
(* ===================================================================== *)

Module ToyFacts.
Import Toy.

Lemma byte_of_N_mod (n : N) : byte_of_N (n mod 256) = byte_of_N n.
Proof. unfold byte_of_N. by rewrite N.Div0.mod_mod. Qed.

Lemma unmask_mask k b : unmask k (mask k b) = b.
Proof.
  unfold unmask, mask. rewrite to_N_byte_of_N.
  pose proof (to_N_lt b). pose proof (to_N_lt (hd x00 k)).
  unfold key_byte. rewrite <-byte_of_N_mod.
  replace (((Byte.to_N b + Byte.to_N (hd x00 k)) mod 256 + 256
            - Byte.to_N (hd x00 k)) mod 256) with (Byte.to_N b) by nlia.
  apply byte_of_N_to_N.
Qed.

Lemma undup_dup l : undup (dup l) = Some l.
Proof.
  induction l as [|x l IH]; [done |]. cbn.
  rewrite bool_decide_eq_true_2 by done. by rewrite IH.
Qed.

Lemma dec_enc m k : dec (enc m k) k = Some m.
Proof.
  unfold dec, enc. rewrite undup_dup. f_equal.
  rewrite map_map. rewrite <-(map_id m) at 2.
  apply map_ext. apply unmask_mask.
Qed.

#[global] Instance sound : CryptSound crypt.
Proof. split; [apply dec_enc | done]. Qed.

Lemma sized : random_bytes_sized crypt.
Proof. intros n r. cbn. unfold len. rewrite repeat_length. lia. Qed.





End ToyFacts.

(* ===================================================================== *)
(** ** The theorems at the sample session                                 *)
(* ===================================================================== *)

Import Toy ToyFacts.

Lemma steady_monotone start step :
  (0 ≤ start)%Z → (0 ≤ step)%Z → monotone (steady start step).
Proof. intros H0 H1. split; cbn; [lia | intros i j ?; nia]. Qed.

Lemma sample_not_in_cooldown rx : ¬ in_cooldown (client_end rx).
Proof. unfold in_cooldown, now. cbn. lia. Qed.



(** The sample handshake. *)
Lemma key_exchange_protocol_witness :
  let e' := (key_exchange server None 1048576 4 (hs0 handshake_rx [])).2 in
  let c := Connection_init (hs_conn e') client_token' (B [6; 6; 6; 6])
             (List.repeat (byte_of_N 5) 32) in
  key_exchange server None 1048576 4 (hs0 handshake_rx []) = (Ok c, e') ∧
  ∃ pub priv data1 public data2 token,
    claves server !! "PUBLIC" = Some pub ∧
    claves server !! "PRIVATE" = Some priv ∧
    calls (hs_conn e') =
      [OpSetTimeout None;
       OpSend pub;
       OpRecv 1048576 (Some data1);
       OpSend (enc_rsa (B [6; 6; 6; 6]) public);
       OpRecv 1048576 (Some data2);
       OpSend (enc_rsa (List.repeat (byte_of_N 5) 32) public)] ∧
    dec_rsa data1 priv ≫= decode = Some public ∧
    dec_rsa data2 priv = Some token ∧
    len (B [6; 6; 6; 6]) = 4 ∧
    hs_entropy e' = 7 ∧
    closed (hs_conn e') = false ∧
    conn c = hs_conn e' ∧
    client_token c = token ∧
    server_token c = B [6; 6; 6; 6] ∧
    aes_key c = List.repeat (byte_of_N 5) 32 ∧
    last_query c = 0%Z ∧
    query_cooldown c = 0%Z.
Proof.
  intros e' c.
  assert (key_exchange server None 1048576 4 (hs0 handshake_rx []) = (Ok c, e'))
    as H by (vm_compute; reflexivity).
  split; [exact H |].
  exact (key_exchange_protocol server None 1048576 4 (hs0 handshake_rx []) c e'
           sized H).
Defined.

(** The client's second message times out. *)
Lemma key_exchange_failure_witness :
  ∃ e', key_exchange server (Some 3%Z) 1048576 4 timed_out
          = (Raise KeyExchangeFailed, e') ∧
        closed (hs_conn e') = true ∧
        calls (hs_conn e') =
          [OpSetTimeout (Some 3%Z); OpSend (B [7]);
           OpRecv 1048576 (Some (B [7; 0x43]));
           OpSend (enc_rsa (B [6; 6; 6; 6]) [0x43]);
           OpRecv 1048576 None; OpClose] ∧
        hs_entropy e' = 7.
Proof.
  apply (key_exchange_failure server (Some 3%Z) 1048576 4 timed_out
           (on_raw (sock_settimeout (Some 3%Z)) timed_out).2
           (key_exchange_steps server 1048576 4
              (on_raw (sock_settimeout (Some 3%Z)) timed_out).2).2
           (OSError ETIMEDOUT)).
  - reflexivity.
  - vm_compute. reflexivity.
Defined.

(** A payload in which the token occurs again: only the prefix goes. *)
Lemma recv_token_check_witness :
  let m := stok ++ B [72] ++ stok ++ B [73] in
  let e := client_end [RxData (frame_of (B [72] ++ stok ++ B [73]))] in
  (stok ≠ slice_to 2 m →
     ∃ e', recv None 5 e = (Raise InvalidToken, e') ∧
           last_query (self e') = 0%Z) ∧
  (stok = slice_to 2 m →
     m = stok ++ slice_from 2 m ∧
     ∃ e', recv None 5 e = (Ok [72; 5; 5; 73], e') ∧
           last_query (self e') = 101%Z).
Proof.
  intros m e.
  apply (recv_token_check None 5 e (after_settimeout e) (B [0; 0; 0; 0; 14])
           (after_prefix e) (enc m key) (after_payload e 14) m).
  - apply sample_not_in_cooldown.
  - reflexivity.
  - reflexivity.
  - reflexivity.
  - discriminate.
  - apply dec_enc.
Defined.

(** A token followed by a byte that is not UTF-8: the prefix is the token,
    and [recv] does not return. *)
Lemma recv_undecodable_remainder :
  let m := stok ++ B [255] in
  let e := client_end [RxData (frame_of (B [255]))] in
  decrypt_aes (enc m key) (aes_key (self e)) = Some m ∧
  client_token (self e) = slice_to (len (client_token (self e))) m ∧
  (recv None 5 e).1 = Raise UnicodeDecodeError ∧
  ¬ ∃ v e', recv None 5 e = (Ok v, e').
Proof.
  intros m e. split; [apply dec_enc |]. split; [reflexivity |].
  assert ((recv None 5 e).1 = Raise UnicodeDecodeError) as H
    by (vm_compute; reflexivity).
  split; [exact H |]. intros (v & e' & Heq). by rewrite Heq in H.
Qed.

(** The frame of "HOLA" arrived whole. *)
Lemma recv_reads_witness :
  let e := client_end [RxData hola_frame] in
  let e' := (recv None 5 e).2 in
  (∃ got1 tail,
     calls (conn (self e')) = OpSetTimeout None :: OpRecv 5 got1 :: tail ∧
     match got1 with
     | None => tail = []
     | Some p =>
         len p ≤ 5 ∧
         ∃ got2 tail2,
           tail = OpRecv (from_bytes p) got2 :: tail2 ∧
           match got2 with
           | None => tail2 = []
           | Some c =>
               len c ≤ from_bytes p ∧
               tail2 = if bool_decide (c = []) then [OpShutdown; OpClose]
                       else []
           end
     end) ∧
  (∀ p c more evs,
     [RxData hola_frame] = RxData (p ++ c ++ more) :: evs →
     len p = 5 → 5 ≠ 0 → from_bytes p = len c → c ≠ [] →
     granted (conn (self e)) 5 → granted (conn (self e)) (len c) →
     ∃ tail, calls (conn (self e')) =
               OpSetTimeout None :: OpRecv 5 (Some p)
               :: OpRecv (len c) (Some c) :: tail).
Proof.
  intros e e'.
  apply (recv_reads None 5 e (recv None 5 e).1 e').
  - apply sample_not_in_cooldown.
  - reflexivity.
  - exact I.
  - reflexivity.
Defined.

(** The frame of "HOLA" was sent whole and the peer is still there, but the
    first read returns two bytes of it: [recv] has not read a prefix of
    [number_size] bytes, nor any ciphertext. *)
Lemma recv_short_read :
  let e := client_end split_delivery in
  let e' := (recv None 5 e).2 in
  ¬ in_cooldown e ∧
  slice_to 2 hola_frame ++ slice_from 2 hola_frame = hola_frame ∧
  calls (conn (self e')) =
    [OpSetTimeout None; OpRecv 5 (Some (B [0; 0])); OpRecv 0 (Some []);
     OpShutdown; OpClose] ∧
  (recv None 5 e).1 = Raise DisconnectedClient ∧
  ¬ ∃ p c rest,
      calls (conn (self e')) =
        OpSetTimeout None :: OpRecv 5 (Some p)
        :: OpRecv (from_bytes p) (Some c) :: rest ∧
      len p = 5 ∧ len c = from_bytes p.
Proof.
  intros e e'. split; [apply sample_not_in_cooldown |].
  split; [apply slice_to_from |].
  assert (calls (conn (self e')) =
    [OpSetTimeout None; OpRecv 5 (Some (B [0; 0])); OpRecv 0 (Some []);
     OpShutdown; OpClose]) as Hcalls by (vm_compute; reflexivity).
  split; [exact Hcalls |]. split; [vm_compute; reflexivity |].
  intros (p & c & rest & Heq & Hp & _). rewrite Hcalls in Heq.
  injection Heq as <- _. vm_compute in Hp. discriminate.
Qed.

(** A second [recv] one tick after the first, with a cooldown of ten. *)
Lemma recv_cooldown_gate_witness :
  let e1 := (run [CallSetQueryCooldown 10; CallRecv None 5]
               (client_end [RxData hola_frame; RxData hola_frame])).2 in
  in_cooldown e1 ∧
  ∃ e', recv None 5 e1 = (Raise TooManyQueries, e') ∧ self e' = self e1.
Proof.
  intros e1.
  assert (in_cooldown e1) as H by (unfold in_cooldown, now; vm_compute; reflexivity).
  split; [exact H |].
  exact (proj1 (recv_cooldown_gate None 5 e1) H).
Defined.

(** A receive succeeds at 101, with a cooldown of ten.  At 120 a frame
    with the right token and a payload that is not UTF-8 arrives: [recv]
    raises UnicodeDecodeError, and that is no successful receive.  At 125,
    24 after the last successful receive, [recv] raises TooManyQueries and
    makes no call on the socket, where a frame is waiting. *)
Lemma recv_limited_after_decode_error :
  let e0 := client_at [100; 101; 120; 121; 125]%Z
              [RxData hola_frame; RxData (frame_of (B [255]));
               RxData hola_frame] in
  let e1 := (run [CallSetQueryCooldown 10; CallRecv None 5] e0).2 in
  let e2 := (recv None 5 e1).2 in
  let e3 := (recv None 5 e2).2 in
  (run [CallSetQueryCooldown 10; CallRecv None 5] e0).1
    = [Returned None; Returned (Some hola)] ∧
  last_query (self e1) = 101%Z ∧
  (recv None 5 e1).1 = Raise UnicodeDecodeError ∧
  now e2 = 125%Z ∧ query_cooldown (self e2) = 10%Z ∧
  (query_cooldown (self e2) ≤ now e2 - 101)%Z ∧
  (recv None 5 e2).1 = Raise TooManyQueries ∧
  calls (conn (self e3)) = calls (conn (self e2)) ∧
  rx (conn (self e3)) = [RxData hola_frame].
Proof. repeat split; vm_compute; first [reflexivity | discriminate]. Qed.

(** The peer has closed and nothing is pending. *)
Lemma recv_disconnected_witness :
  let e := client_end [] in
  ∃ e', recv None 5 e = (Raise DisconnectedClient, e') ∧
        closed (conn (self e')) = true ∧
        ∃ got, calls (conn (self e')) =
               [OpSetTimeout None; OpRecv 5 (Some [])] ++
               [OpRecv 0 got; OpShutdown; OpClose].
Proof.
  intros e.
  apply (recv_disconnected None 5 e (after_settimeout e) [] (after_prefix e)).
  - apply sample_not_in_cooldown.
  - reflexivity.
  - reflexivity.
  - by left.
Defined.

(** A frame whose plaintext starts with another token. *)
Lemma recv_content_error_keeps_connection_witness :
  let e := client_end [RxData (framed 5 (enc (B [5; 6; 72]) key))] in
  let e' := (recv None 5 e).2 in
  closed (conn (self e)) = false ∧ closed (conn (self e')) = false ∧
  (∃ p c, calls (conn (self e')) =
          [OpSetTimeout None; OpRecv 5 (Some p); OpRecv (from_bytes p) (Some c)]) ∧
  client_token (self e') = stok ∧
  server_token (self e') = ctok ∧
  aes_key (self e') = key ∧
  last_query (self e') = 0%Z ∧
  query_cooldown (self e') = 0%Z.
Proof.
  intros e e'.
  apply (recv_content_error_keeps_connection None 5 e InvalidToken e').
  - vm_compute. reflexivity.
  - by right.
Defined.


(** With a cipher that has no redundancy the same inversion goes through:
    the token check alone does not notice a changed payload. *)
Remark token_check_is_no_integrity_check :
  let c := @encrypt_aes plain_crypt (stok ++ B [72; 79; 76; 65]) key in
  (@recv plain_crypt None 5
     (client_end [RxData (framed 5 (flip_bit 24 c))])).1 = Ok [71; 79; 76; 65].
Proof. vm_compute. reflexivity. Qed.

(** Receives, a cooldown of zero, a send and a close on a new connection. *)
Lemma fresh_connection_never_limited_witness :
  let cs := [CallRecv None 5; CallSetQueryCooldown 0; CallRecv None 5;
             CallSend hola 5; CallRecv None 5; CallClose; CallRecv None 5] in
  let c := Connection_init (fresh_socket [RxData hola_frame] []) stok ctok key in
  last_query c = 0%Z ∧ query_cooldown c = 0%Z ∧
  Raised TooManyQueries ∉ (run cs {| self := c; clock := steady 100 1 |}).1.
Proof.
  intros cs.
  apply (fresh_connection_never_limited (fresh_socket [RxData hola_frame] [])
           stok ctok key (steady 100 1) cs).
  - apply steady_monotone; lia.
  - repeat (constructor; [first [exact I | cbn; lia] |]). constructor.
Defined.

(** A new connection on which no cooldown is ever set.  A receive succeeds
    at 101; then the clock of the machine is set back, and the next [recv]
    reads 91: it raises TooManyQueries. *)
Lemma fresh_connection_limited_by_clock :
  let c := Connection_init
             (fresh_socket [RxData hola_frame; RxData hola_frame] [])
             stok ctok key in
  let cs := [CallRecv None 5; CallRecv None 5] in
  last_query c = 0%Z ∧ query_cooldown c = 0%Z ∧
  Forall no_positive_cooldown cs ∧
  (run cs {| self := c; clock := listed [100; 101; 91]%Z |}).1
    = [Returned (Some hola); Raised TooManyQueries] ∧
  Raised TooManyQueries
    ∈ (run cs {| self := c; clock := listed [100; 101; 91]%Z |}).1.
Proof.
  intros c cs.
  assert ((run cs {| self := c; clock := listed [100; 101; 91]%Z |}).1
          = [Returned (Some hola); Raised TooManyQueries]) as Hrun
    by (vm_compute; reflexivity).
  split; [done |]. split; [done |].
  split; [by repeat constructor |]. split; [exact Hrun |].
  rewrite Hrun. apply elem_of_cons. right. apply elem_of_cons. by left.
Qed.

(* ===================================================================== *)
(** ** Further properties: the socket and the frame                       *)
(* ===================================================================== *)

Lemma sock_settimeout_fails t s :
  closed s = true ∨ ¬ valid_timeout t →
  ∃ x, sock_settimeout t s = (Raise x, logged (OpSetTimeout t) s) ∧
       (x = ValueError ∨ x = OSError EBADF).
Proof.
  unfold sock_settimeout, valid_timeout. cbn.
  destruct t as [v|]; [destruct (Z.ltb_spec v 0) |].
  - intros _. exists ValueError. auto.
  - intros [-> | Hv]; [| lia]. exists (OSError EBADF). auto.
  - intros [-> | Hv]; [| done]. exists (OSError EBADF). auto.
Qed.

Lemma sock_send_unwritable b s :
  ¬ writable s →
  ∃ x s1, sock_send b s = (Raise x, s1) ∧ calls s1 = calls s ++ [OpSend b].
Proof.
  unfold writable, sock_send. cbn. intros Hw.
  destruct (closed s); [by eexists _, _ |].
  destruct (tx s) as [|[|x] evs]; [by destruct Hw | by destruct Hw |].
  by eexists _, _.
Qed.

Lemma from_bytes_lt (p : bytes) : from_bytes p < 256 ^ len p.
Proof.
  induction p as [|x p IH] using rev_ind; [done |].
  rewrite from_bytes_snoc, len_app. pose proof (to_N_lt x).
  change (len [x]) with 1. rewrite N.pow_add_r. change (256 ^ 1) with 256. nia.
Qed.

Lemma framed_split (n : N) (c : bytes) :
  len c < 256 ^ n →
  ∃ p, framed n c = p ++ c ∧ to_bytes (len c) n = Some p ∧ len p = n ∧
       from_bytes p = len c.
Proof.
  intros Hlen. destruct (to_bytes_from_bytes _ _ Hlen) as (p & Hp & Hpn & Hpc).
  exists p. split; [| done]. unfold framed. unfold to_bytes in Hp.
  destruct (N.ltb_spec (len c) (256 ^ n)); [| done]. by injection Hp as <-.
Qed.

(** The three socket calls of [recv] on a frame that has arrived whole. *)
Lemma frame_reads (t : option Z) (n : N) (s : Socket) (c more : bytes)
  (evs : list RxEvent) :
  closed s = false → valid_timeout t → c ≠ [] → len c < 256 ^ n →
  granted s n → granted s (len c) →
  rx s = RxData (framed n c ++ more) :: evs →
  ∃ s1 p s2 s3,
    sock_settimeout t s = (Ok (), s1) ∧
    sock_recv n s1 = (Ok p, s2) ∧
    sock_recv (from_bytes p) s2 = (Ok c, s3) ∧
    closed s3 = false ∧ rx s3 = pending more evs ∧ tx s3 = tx s ∧
    memory s3 = memory s ∧
    calls s3 = calls s ++
      [OpSetTimeout t; OpRecv n (Some p); OpRecv (len c) (Some c)].
Proof.
  intros Hopen Ht Hc Hlen Hg1 Hg2 Hrx.
  destruct (framed_split n c Hlen) as (p & Hframe & _ & Hpn & Hpc).
  rewrite Hframe, <-app_assoc in Hrx.
  assert (n ≠ 0) as Hn.
  { intros ->. destruct c; [done |]. rewrite len_cons in Hlen. cbn in Hlen. lia. }
  pose proof (sock_settimeout_open t _ Hopen Ht) as Hst.
  set (s0 := {| closed := false; timeout := t; rx := rx s; tx := tx s;
                calls := calls s ++ [OpSetTimeout t];
                memory := memory s |}) in *.
  pose proof (sock_recv_data n s0 p (c ++ more) evs eq_refl Hn Hpn Hrx Hg1)
    as H1.
  set (s2 := logged _ _) in H1.
  assert (rx s2 = RxData (c ++ more) :: evs) as Hrx2.
  { subst s2. cbn. by destruct c. }
  assert (from_bytes p ≠ 0) as Hn2.
  { rewrite Hpc. intros Hz. by apply len_zero in Hz. }
  assert (granted s2 (from_bytes p)) as Hg2' by (by rewrite Hpc).
  pose proof (sock_recv_data (from_bytes p) s2 c more evs eq_refl Hn2
                (eq_sym Hpc) Hrx2 Hg2') as H2.
  set (s3 := logged _ _) in H2.
  exists s0, p, s2, s3. repeat split; try done.
  subst s3 s2 s0. cbn. rewrite Hpc, <-!app_assoc. done.
Qed.

Section FurtherSession.
Context {crypt : Crypt}.

(** On a frame that has arrived whole, the result of [recv] is what the
    ciphertext, the key and the expected token make it. *)
Lemma recv_on_frame (t : option Z) (n : N) (e : Env) (c more : bytes)
  (evs : list RxEvent) :
  ¬ in_cooldown e → closed (conn (self e)) = false → valid_timeout t →
  c ≠ [] → len c < 256 ^ n →
  granted (conn (self e)) n → granted (conn (self e)) (len c) →
  rx (conn (self e)) = RxData (framed n c ++ more) :: evs →
  ∃ e', recv t n e
          = (opened (client_token (self e)) (aes_key (self e)) c, e') ∧
        closed (conn (self e')) = false ∧
        rx (conn (self e')) = pending more evs ∧
        tx (conn (self e')) = tx (conn (self e)) ∧
        memory (conn (self e')) = memory (conn (self e)) ∧
        client_token (self e') = client_token (self e) ∧
        server_token (self e') = server_token (self e) ∧
        aes_key (self e') = aes_key (self e) ∧
        query_cooldown (self e') = query_cooldown (self e) ∧
        ticks (clock e') = ticks (clock e) ∧
        ((past_token_check
            (opened (client_token (self e)) (aes_key (self e)) c) = true ∧
          last_query (self e') = ticks (clock e) (S (reads (clock e))) ∧
          reads (clock e') = S (S (reads (clock e)))) ∨
         (past_token_check
            (opened (client_token (self e)) (aes_key (self e)) c) = false ∧
          last_query (self e') = last_query (self e) ∧
          reads (clock e') = S (reads (clock e)))).
Proof.
  intros Hcool Hopen Ht Hc Hlen Hg1 Hg2 Hrx.
  destruct (frame_reads t n _ c more evs Hopen Ht Hc Hlen Hg1 Hg2 Hrx)
    as (s1 & p & s2 & s3 & Hst & H1 & H2 & Hcl & Hrx3 & Htx3 & Hmem3 & _).
  unfold opened.
  destruct (decrypt_aes c (aes_key (self e))) as [m|] eqn:Hd.
  - case_bool_decide as Htok.
    + exists (stamped (put_conn s3 (ticked e))).
      erewrite recv_token_match, or_raise_eq by done.
      repeat split; try done. left. by destruct (decode _).
    + exists (put_conn s3 (ticked e)).
      erewrite recv_token_mismatch by done.
      repeat split; try done. by right.
  - exists (put_conn s3 (ticked e)).
    erewrite recv_undecryptable by done.
    repeat split; try done. by right.
Qed.

End FurtherSession.
(* ===================================================================== *)
(** ** Further properties: close and send                                 *)
(* ===================================================================== *)

(** X1.  [close] returns whatever the state of the socket, also when
    [shutdown] raises because the socket is closed already; the socket is
    closed after it, [shutdown] and [close] having been called on it once
    each, and a second [close] returns as well.  Nothing but the socket has
    changed. *)
Theorem close_never_raises (e : Env) :
  ∃ e1 e2,
    close e = (Ok (), e1) ∧ close e1 = (Ok (), e2) ∧
    closed (conn (self e1)) = true ∧ closed (conn (self e2)) = true ∧
    calls (conn (self e1)) = calls (conn (self e)) ++ [OpShutdown; OpClose] ∧
    self e2 = with_conn (conn (self e2)) (self e) ∧ clock e2 = clock e.
Proof.
  exists (put_conn (shut (conn (self e))) e).
  exists (put_conn (shut (shut (conn (self e)))) e).
  by rewrite !close_spec.
Qed.

Section FurtherSend.
Context {crypt : Crypt}.

(** X2.  When the socket does not take the write, because it is closed or
    the peer is gone, [send] has tried to write the frame once, calls
    [shutdown] and [close], and raises DisconnectedClient. *)
Theorem send_unwritable (msg : str) (n : N) (e : Env) (data : bytes) :
  let c := encrypt_aes (server_token (self e) ++ data) (aes_key (self e)) in
  encode msg = Some data →
  len c < 256 ^ n →
  ¬ writable (conn (self e)) →
  ∃ e', send msg n e = (Raise DisconnectedClient, e') ∧
        closed (conn (self e')) = true ∧
        calls (conn (self e')) =
          calls (conn (self e)) ++ [OpSend (framed n c); OpShutdown; OpClose].
Proof.
  intros c He Hlen Hw.
  destruct (framed_split n c Hlen) as (p & Hframe & Hp & _).
  destruct (sock_send_unwritable (p ++ c) _ Hw) as (x & s1 & Hs & Hcalls).
  exists (put_conn (shut s1) e).
  split; [by eapply send_disconnected |]. split; [done |].
  cbn. rewrite Hcalls, Hframe, <-app_assoc. done.
Qed.

(** X3.  When the length of the ciphertext does not fit [number_size]
    bytes, [send] raises OverflowError: nothing is written and the
    connection is neither closed nor changed. *)
Theorem send_oversize (msg : str) (n : N) (e : Env) (data : bytes) :
  encode msg = Some data →
  256 ^ n ≤ len (encrypt_aes (server_token (self e) ++ data)
                   (aes_key (self e))) →
  send msg n e = (Raise OverflowError, e).
Proof.
  intros He Hlen. unfold send, mbind, M_bind, attr. cbn.
  rewrite He. cbn. by rewrite to_bytes_overflow.
Qed.

(** X4.  Every [send] raises nothing but UnicodeEncodeError, OverflowError
    and DisconnectedClient, reads no clock and leaves the tokens, the key,
    the timestamp and the cooldown as they are; and on a connection that
    was open the connection is closed after [send] exactly when it has
    raised DisconnectedClient. *)
Theorem send_closes_only_on_disconnect (msg : str) (n : N) (e : Env) r e' :
  send msg n e = (r, e') →
  (∀ x, r = Raise x →
        x = UnicodeEncodeError ∨ x = OverflowError ∨ x = DisconnectedClient) ∧
  self e' = with_conn (conn (self e')) (self e) ∧ clock e' = clock e ∧
  (closed (conn (self e)) = false →
   (closed (conn (self e')) = true ↔ r = Raise DisconnectedClient)).
Proof.
  unfold send, mbind, M_bind, attr, try_except, raise, on_conn.
  cbn. destruct (encode msg) as [data|]; cbn.
  2: { intros [= <- <-]. destruct e as [[]]. cbn.
       repeat split; try done; [intros ? [= <-]; auto | congruence]. }
  destruct (to_bytes _ n) as [p|]; cbn.
  2: { intros [= <- <-]. destruct e as [[]]. cbn.
       repeat split; try done; [intros ? [= <-]; auto | congruence]. }
  destruct (sock_send _ _) as [[[]|x] s1] eqn:Hs; cbn.
  - apply sock_send_calls in Hs as (Hc & _). intros [= <- <-]. cbn.
    rewrite Hc. repeat split; try done. congruence.
  - rewrite (sock_send_raises _ _ _ _ Hs), close_spec. cbn.
    intros [= <- <-]. cbn. repeat split; try done. intros ? [= <-]. auto.
Qed.

End FurtherSend.

(* ===================================================================== *)
(** ** Further properties: what [recv] raises and changes                 *)
(* ===================================================================== *)

Section FurtherRecv.
Context {crypt : Crypt}.

(** The sockets [recv] goes through stay open until [close]. *)
Lemma reads_keep_open t n s s1 p s2 r s3 :
  sock_settimeout t s = (Ok (), s1) →
  sock_recv n s1 = (p, s2) →
  sock_recv (from_bytes (default [] (got_of p))) s2 = (r, s3) →
  closed s1 = false ∧ closed s2 = false ∧ closed s3 = false.
Proof.
  intros Hst H1 H2.
  apply sock_settimeout_ok in Hst as (_ & _ & ->).
  apply sock_recv_calls in H1 as (Hc1 & _).
  apply sock_recv_calls in H2 as (Hc2 & _).
  cbn in *. by rewrite Hc2, Hc1.
Qed.

(** X5.  Every exception of [recv] is one of TooManyQueries,
    DisconnectedClient, UnableToDecrypt, InvalidToken and
    UnicodeDecodeError, or the ValueError or OSError of a call on the
    socket, or the OverflowError or MemoryError of a read that does not get
    its buffer, the size being [number_size] or what the peer's prefix
    says; and on a connection that was open the connection is closed after
    [recv] exactly when the exception is DisconnectedClient. *)
Theorem recv_closes_only_on_disconnect (t : option Z) (n : N) (e : Env) r e' :
  recv t n e = (r, e') →
  (∀ x, r = Raise x → recv_raises x ∨ socket_raises x ∨ buffer_raises x) ∧
  (closed (conn (self e)) = false →
   (closed (conn (self e')) = true ↔ r = Raise DisconnectedClient)).
Proof.
  intros Hr. apply recv_inv in Hr. unfold recv_raises, socket_raises.
  destruct Hr as [Hin | x s1 _ Hst | s1 x s2 _ Hst H1 | s1 p s2 x s3 _ Hst H1 H2
    | s1 p s2 s3 _ Hst H1 H2 | s1 p s2 c s3 _ Hst H1 H2 _ _
    | s1 p s2 c s3 m _ Hst H1 H2 _ _ _ | s1 p s2 c s3 m r _ Hst H1 H2 _ _ _ ->];
    cbn.
  - split; [intros x [= <-]; auto |]. intros ->. done.
  - pose proof (sock_settimeout_raises _ _ _ _ Hst) as Hx.
    apply sock_settimeout_calls in Hst as (-> & _).
    split; [intros ? [= <-]; auto |]. intros ->.
    split; [done |]. intros [= ->]. by destruct Hx.
  - pose proof (sock_recv_raises _ _ _ _ H1) as Hx.
    apply sock_settimeout_ok in Hst as (_ & _ & ->).
    apply sock_recv_calls in H1 as (-> & _). cbn.
    split; [intros ? [= <-]; destruct Hx; auto |]. intros _.
    split; [done |]. intros [= ->]. by destruct Hx as [? | [? | ?]].
  - pose proof (sock_recv_raises _ _ _ _ H2) as Hx.
    destruct (reads_keep_open _ _ _ _ _ _ _ _ Hst H1 H2) as (_ & _ & ->).
    split; [intros ? [= <-]; destruct Hx; auto |]. intros _.
    split; [done |]. intros [= ->]. by destruct Hx as [? | [? | ?]].
  - split; [intros ? [= <-]; auto |]. done.
  - destruct (reads_keep_open _ _ _ _ _ _ _ _ Hst H1 H2) as (_ & _ & ->).
    split; [intros ? [= <-]; auto 6 |]. done.
  - destruct (reads_keep_open _ _ _ _ _ _ _ _ Hst H1 H2) as (_ & _ & ->).
    split; [intros ? [= <-]; auto 6 |]. done.
  - destruct (reads_keep_open _ _ _ _ _ _ _ _ Hst H1 H2) as (_ & _ & ->).
    destruct (decode _); (split; [intros ? [= <-]; auto 8 | done]).
Qed.

(** X6.  [recv] writes [last_query] exactly when the token check was
    passed: when it returns, and also when it then raises
    UnicodeDecodeError on a payload that is not UTF-8; the value is its
    second clock reading.  With every other exception [last_query] is as it
    was. *)
Theorem recv_stamps (t : option Z) (n : N) (e : Env) r e' :
  recv t n e = (r, e') →
  last_query (self e') =
    if past_token_check r then now (ticked e) else last_query (self e).
Proof.
  intros Hr. apply recv_inv in Hr.
  destruct Hr as [Hin | x s1 _ Hst | s1 x s2 _ Hst H1 | s1 p s2 x s3 _ Hst H1 H2
    | | | | s1 p s2 c s3 m r _ Hst H1 H2 _ _ _ ->]; cbn; try done.
  - apply sock_settimeout_raises in Hst as [-> | Hx]; [done |]. by destruct x.
  - apply sock_recv_raises in H1 as [Hx | [-> | ->]]; [| done | done].
    by destruct x.
  - apply sock_recv_raises in H2 as [Hx | [-> | ->]]; [| done | done].
    by destruct x.
  - by destruct (decode _).
Qed.

(** X7.  A length prefix of value 0 is taken for a disconnection: the
    prefix read, with the buffer for it, the read of 0 bytes is empty, so
    [recv] closes the connection and raises DisconnectedClient although
    the peer is there; what had arrived after the prefix is left unread. *)
Theorem recv_zero_length (t : option Z) (n : N) (e : Env) (p more : bytes)
  (evs : list RxEvent) :
  ¬ in_cooldown e →
  closed (conn (self e)) = false →
  valid_timeout t →
  n ≠ 0 → len p = n → from_bytes p = 0 →
  granted (conn (self e)) n →
  rx (conn (self e)) = RxData (p ++ more) :: evs →
  ∃ e', recv t n e = (Raise DisconnectedClient, e') ∧
        closed (conn (self e')) = true ∧
        rx (conn (self e')) = pending more evs.
Proof.
  intros Hcool Hopen Ht Hn Hp Hz Hg Hrx.
  pose proof (sock_settimeout_open t _ Hopen Ht) as Hst.
  set (s0 := {| closed := false; timeout := t; rx := rx (conn (self e));
                tx := tx (conn (self e));
                calls := calls (conn (self e)) ++ [OpSetTimeout t];
                memory := memory (conn (self e)) |}) in *.
  pose proof (sock_recv_data n s0 p more evs eq_refl Hn Hp Hrx Hg) as H1.
  set (s2 := logged _ _) in H1.
  pose proof (sock_recv_zero s2) as H2. rewrite <-Hz in H2 at 1.
  eexists. split; [by eapply recv_empty_payload |]. by split.
Qed.

(** X8.  Whatever [recv] asks of the socket in a read is [number_size]
    bytes or a number below [256 ^ number_size]: the size of the second
    read is what the peer's prefix says, with no other bound. *)
Theorem recv_read_sizes (t : option Z) (n : N) (e : Env) r e' :
  recv t n e = (r, e') →
  ∃ new, calls (conn (self e')) = calls (conn (self e)) ++ new ∧
         ∀ size got, OpRecv size got ∈ new → size = n ∨ size < 256 ^ n.
Proof.
  intros Hr. apply recv_inv in Hr.
  assert (∀ s1 p s2, sock_recv n s1 = (Ok p, s2) → from_bytes p < 256 ^ n)
    as Hbound.
  { intros s1 p s2 H1. apply sock_recv_len in H1.
    eapply N.lt_le_trans; [apply from_bytes_lt |].
    apply N.pow_le_mono_r; [done | exact H1]. }
  assert (∀ p got1 got2 (tail : list SockOp),
            from_bytes p < 256 ^ n →
            (∀ size got, OpRecv size got ∈ tail → False) →
            ∀ size got,
              OpRecv size got ∈ OpSetTimeout t :: OpRecv n got1
                                :: OpRecv (from_bytes p) got2 :: tail →
              size = n ∨ size < 256 ^ n) as Hthree.
  { intros p got1 got2 tail Hb Htail size got Hin.
    apply elem_of_cons in Hin as [Heq | Hin]; [done |].
    apply elem_of_cons in Hin as [Heq | Hin]; [injection Heq as -> _; by left |].
    apply elem_of_cons in Hin as [Heq | Hin]; [injection Heq as -> _; by right |].
    by destruct (Htail _ _ Hin). }
  destruct Hr as [Hin | x s1 _ Hst | s1 x s2 _ Hst H1 | s1 p s2 x s3 _ Hst H1 H2
    | s1 p s2 s3 _ Hst H1 H2 | s1 p s2 c s3 _ Hst H1 H2 _ _
    | s1 p s2 c s3 m _ Hst H1 H2 _ _ _ | s1 p s2 c s3 m r _ Hst H1 H2 _ _ _ _];
    try pose proof (Hbound _ _ _ H1) as Hb;
    repeat match goal with
      | H : sock_settimeout _ _ = _ |- _ =>
          apply sock_settimeout_calls in H as (_ & H & _)
      | H : sock_recv _ _ = _ |- _ => apply sock_recv_calls in H as (_ & H & _)
      end;
    cbn;
    repeat match goal with
      | H : calls _ = _ |- _ => rewrite H; clear H
      end;
    rewrite <-?app_assoc; cbn.
  - exists []. split; [by rewrite app_nil_r |]. intros ? ? Hel.
    by apply elem_of_nil in Hel.
  - eexists. split; [reflexivity |]. intros ? ? Hel.
    apply list_elem_of_singleton in Hel. done.
  - eexists. split; [reflexivity |]. intros ? ? Hel.
    apply elem_of_cons in Hel as [Heq | Hel]; [done |].
    apply list_elem_of_singleton in Hel. injection Hel as -> _. by left.
  - eexists. split; [reflexivity |]. apply Hthree; [done |].
    intros ? ? Hel. by apply elem_of_nil in Hel.
  - eexists. split; [reflexivity |]. apply Hthree; [done |].
    intros ? ? Hel. apply elem_of_cons in Hel as [Heq | Hel]; [done |].
    by apply list_elem_of_singleton in Hel.
  - eexists. split; [reflexivity |]. apply Hthree; [done |].
    intros ? ? Hel. by apply elem_of_nil in Hel.
  - eexists. split; [reflexivity |]. apply Hthree; [done |].
    intros ? ? Hel. by apply elem_of_nil in Hel.
  - eexists. split; [reflexivity |]. apply Hthree; [done |].
    intros ? ? Hel. by apply elem_of_nil in Hel.
Qed.

(** X20.  The size of the second read is what the peer's prefix says, as
    it is: when the interpreter cannot allocate a buffer of that size,
    [recv] raises OverflowError, for a size above [max_bytes], or
    MemoryError.  The connection stays open, the prefix is consumed, what
    came after it is left unread and the timestamp is as it was. *)
Theorem recv_unallocatable (t : option Z) (n : N) (e : Env) (p more : bytes)
  (evs : list RxEvent) :
  ¬ in_cooldown e →
  closed (conn (self e)) = false →
  valid_timeout t →
  n ≠ 0 → len p = n →
  granted (conn (self e)) n →
  ¬ granted (conn (self e)) (from_bytes p) →
  rx (conn (self e)) = RxData (p ++ more) :: evs →
  ∃ e', recv t n e =
          (Raise (if max_bytes <? from_bytes p then OverflowError
                  else MemoryError), e') ∧
        closed (conn (self e')) = false ∧
        rx (conn (self e')) = pending more evs ∧
        calls (conn (self e')) =
          calls (conn (self e)) ++
          [OpSetTimeout t; OpRecv n (Some p); OpRecv (from_bytes p) None] ∧
        last_query (self e') = last_query (self e).
Proof.
  intros Hcool Hopen Ht Hn Hp Hg Hng Hrx.
  pose proof (sock_settimeout_open t _ Hopen Ht) as Hst.
  set (s0 := {| closed := false; timeout := t; rx := rx (conn (self e));
                tx := tx (conn (self e));
                calls := calls (conn (self e)) ++ [OpSetTimeout t];
                memory := memory (conn (self e)) |}) in *.
  pose proof (sock_recv_data n s0 p more evs eq_refl Hn Hp Hrx Hg) as H1.
  set (s2 := logged _ _) in H1.
  pose proof (sock_recv_refused (from_bytes p) s2 Hng) as H2.
  eexists. split; [by eapply recv_payload_raises |].
  cbn. rewrite <-!app_assoc. by repeat split.
Qed.

End FurtherRecv.
(* ===================================================================== *)
(** ** Further properties: frames one after the other                     *)
(* ===================================================================== *)

Section FurtherFrames.
Context {crypt : Crypt}.

(** What a sound cipher makes of a ciphertext made under the same key for
    the expected token. *)
Lemma opened_sealed {sound : CryptSound crypt} (token key data : bytes)
  (P : str) :
  decode data = Some P →
  opened token key (encrypt_aes (token ++ data) key) = Ok P.
Proof.
  intros Hdec. unfold opened. rewrite decrypt_encrypt_aes.
  rewrite bool_decide_eq_true_2 by (by rewrite slice_to_app).
  by rewrite replace_prefix, Hdec.
Qed.

(** X9.  A frame made under the session key for a token other than the one
    expected, and of the same length, once read, with the buffers for the
    two reads, is refused with InvalidToken and the connection stays open:
    so is a frame the connection has sent itself and gets back, when its
    two tokens differ. *)
Theorem recv_rejects_other_token {sound : CryptSound crypt} (t : option Z)
  (n : N) (e : Env) (token data more : bytes) (evs : list RxEvent) :
  let c := encrypt_aes (token ++ data) (aes_key (self e)) in
  ¬ in_cooldown e →
  closed (conn (self e)) = false →
  valid_timeout t →
  len c < 256 ^ n →
  granted (conn (self e)) n →
  granted (conn (self e)) (len c) →
  rx (conn (self e)) = RxData (framed n c ++ more) :: evs →
  len token = len (client_token (self e)) →
  token ≠ client_token (self e) →
  ∃ e', recv t n e = (Raise InvalidToken, e') ∧
        closed (conn (self e')) = false ∧
        last_query (self e') = last_query (self e).
Proof.
  intros c Hcool Hopen Ht Hlen Hg1 Hg2 Hrx Hl Hne.
  assert (c ≠ []) as Hc by apply encrypt_aes_nonempty.
  destruct (recv_on_frame t n e c more evs Hcool Hopen Ht Hc Hlen Hg1 Hg2 Hrx)
    as (e' & Hr & Hcl & _ & _ & _ & _ & _ & _ & _ & _ & Hq).
  assert (opened (client_token (self e)) (aes_key (self e)) c
          = Raise InvalidToken) as Ho.
  { unfold opened, c. rewrite decrypt_encrypt_aes.
    rewrite bool_decide_eq_false_2; [done |].
    rewrite <-Hl, slice_to_app. congruence. }
  rewrite Ho in Hr, Hq. exists e'. split; [done |]. split; [done |].
  by destruct Hq as [[? _] | (_ & ? & _)].
Qed.

(** X10.  Two frames that have arrived together are received one after the
    other, in the order they were sent, by two calls of [recv], the
    second being out of the cooldown of the first and the interpreter
    having the memory for every read; what came after them is left to
    read. *)
Theorem recv_frames_in_order {sound : CryptSound crypt} (t : option Z) (n : N)
  (e : Env) (P1 P2 : str) (d1 d2 more : bytes) (evs : list RxEvent) :
  let token := client_token (self e) in
  let c1 := encrypt_aes (token ++ d1) (aes_key (self e)) in
  let c2 := encrypt_aes (token ++ d2) (aes_key (self e)) in
  let k := clock e in
  encode P1 = Some d1 → encode P2 = Some d2 →
  len c1 < 256 ^ n → len c2 < 256 ^ n →
  ¬ in_cooldown e →
  (query_cooldown (self e)
     ≤ ticks k (S (S (reads k))) - ticks k (S (reads k)))%Z →
  closed (conn (self e)) = false →
  valid_timeout t →
  granted (conn (self e)) n →
  granted (conn (self e)) (len c1) →
  granted (conn (self e)) (len c2) →
  rx (conn (self e)) = RxData (framed n c1 ++ framed n c2 ++ more) :: evs →
  ∃ e', run [CallRecv t n; CallRecv t n] e
          = ([Returned (Some P1); Returned (Some P2)], e') ∧
        rx (conn (self e')) = pending more evs.
Proof.
  intros token c1 c2 k He1 He2 Hl1 Hl2 Hcool Hcd Hopen Ht Hg Hg1 Hg2 Hrx.
  assert (c1 ≠ []) as Hc1 by apply encrypt_aes_nonempty.
  assert (c2 ≠ []) as Hc2 by apply encrypt_aes_nonempty.
  destruct (recv_on_frame t n e c1 (framed n c2 ++ more) evs Hcool Hopen Ht
              Hc1 Hl1 Hg Hg1 Hrx)
    as (e1 & Hr1 & Hcl1 & Hrx1 & _ & Hmem1 & Htok1 & _ & Hkey1 & Hcd1 & Hticks1
        & Hq1).
  unfold granted in Hg, Hg2. rewrite <-Hmem1 in Hg, Hg2.
  unfold c1 in Hr1, Hq1. fold token in Hr1, Hq1.
  rewrite (opened_sealed _ _ _ P1) in Hr1, Hq1 by by apply decode_encode.
  destruct Hq1 as [(_ & Hlast1 & Hreads1) | [? _]]; [| done].
  assert (framed n c2 ++ more ≠ []) as Hne.
  { unfold framed. destruct (be_digits _ _); [by destruct c2 | done]. }
  assert (rx (conn (self e1)) = RxData (framed n c2 ++ more) :: evs) as Hrx2.
  { rewrite Hrx1. unfold pending. by destruct (framed n c2 ++ more). }
  assert (¬ in_cooldown e1) as Hcool1.
  { unfold in_cooldown, now, clock_time. cbn.
    rewrite Hticks1, Hreads1, Hlast1, Hcd1. fold k. lia. }
  destruct (recv_on_frame t n e1 c2 more evs Hcool1 Hcl1 Ht Hc2 Hl2 Hg Hg2 Hrx2)
    as (e2 & Hr2 & _ & Hrx3 & _).
  rewrite Htok1, Hkey1 in Hr2. unfold c2 in Hr2. fold token in Hr2.
  rewrite (opened_sealed _ _ _ P2) in Hr2 by by apply decode_encode.
  exists e2. split; [| done]. cbn. by rewrite Hr1, Hr2.
Qed.



End FurtherFrames.

(* ===================================================================== *)
(** ** Further properties: sequences of calls                             *)
(* ===================================================================== *)

Section FurtherCalls.
Context {crypt : Crypt}.

Lemma recv_keeps_secrets t n e r e' :
  recv t n e = (r, e') →
  client_token (self e') = client_token (self e) ∧
  server_token (self e') = server_token (self e) ∧
  aes_key (self e') = aes_key (self e).
Proof. intros Hr. apply recv_inv in Hr. by destruct Hr. Qed.

Lemma call_keeps_secrets c e o e' :
  call c e = (o, e') →
  client_token (self e') = client_token (self e) ∧
  server_token (self e') = server_token (self e) ∧
  aes_key (self e') = aes_key (self e).
Proof.
  destruct c as [msg n | t n | v |]; cbn.
  - destruct (send msg n e) as [r e1] eqn:Hs. intros [= _ <-].
    apply send_frame_condition in Hs as (_ & s & ->). done.
  - destruct (recv t n e) as [r e1] eqn:Hr. intros [= _ <-].
    by eapply recv_keeps_secrets.
  - by intros [= _ <-].
  - rewrite close_spec. by intros [= _ <-].
Qed.

(** X12.  No sequence of calls of [send], [recv], [set_query_cooldown] and
    [close] changes the client token, the server token or the key of a
    connection. *)
Theorem secrets_never_change (cs : list Call) (e : Env) :
  client_token (self (run cs e).2) = client_token (self e) ∧
  server_token (self (run cs e).2) = server_token (self e) ∧
  aes_key (self (run cs e).2) = aes_key (self e).
Proof.
  revert e. induction cs as [|c cs IH]; intros e; [done |].
  cbn. destruct (call c e) as [o e1] eqn:Hc.
  destruct (run cs e1) as [os e2] eqn:Hrun. cbn.
  specialize (IH e1). rewrite Hrun in IH. cbn in IH.
  apply call_keeps_secrets in Hc as (H1 & H2 & H3).
  destruct IH as (I1 & I2 & I3). by rewrite I1, I2, I3.
Qed.

Lemma call_on_closed c e o e' :
  closed (conn (self e)) = true →
  call c e = (o, e') →
  refused c o ∧ closed (conn (self e')) = true.
Proof.
  intros Hcl. destruct c as [msg n | t n | v |]; cbn.
  - destruct (send msg n e) as [r e1] eqn:Hs. intros [= <- <-].
    revert Hs. unfold send, mbind, M_bind, attr, try_except, raise, on_conn.
    cbn. destruct (encode msg) as [data|]; cbn;
      [| intros [= <- <-]; split; [by eexists | done]].
    destruct (to_bytes _ n) as [p|]; cbn;
      [| intros [= <- <-]; split; [by eexists | done]].
    destruct (sock_send _ _) as [[[]|x] s1] eqn:Hs; cbn.
    + unfold sock_send in Hs. cbn in Hs. by rewrite Hcl in Hs.
    + rewrite (sock_send_raises _ _ _ _ Hs), close_spec. cbn.
      intros [= <- <-]. split; [by eexists | done].
  - destruct (recv t n e) as [r e1] eqn:Hr. intros [= <- <-].
    apply recv_inv in Hr.
    destruct Hr as [Hin | x s1 _ Hst | s1 x s2 _ Hst H1 | s1 p s2 x s3 _ Hst H1 H2
      | s1 p s2 s3 _ Hst H1 H2 | s1 p s2 c s3 _ Hst H1 H2 _ _
      | s1 p s2 c s3 m _ Hst H1 H2 _ _ _ | s1 p s2 c s3 m r _ Hst H1 H2 _ _ _ _];
      try (apply sock_settimeout_ok in Hst as (Hopen & _); congruence).
    + split; [by eexists | done].
    + apply sock_settimeout_calls in Hst as (Hc & _). cbn.
      split; [by eexists | congruence].
  - by intros [= <- <-].
  - rewrite close_spec. by intros [= <- <-].
Qed.

(** X13.  A closed connection stays closed: in every sequence of calls made
    on it every [send] and every [recv] raises, so that nothing is written
    or received any more, while [set_query_cooldown] and [close] return. *)
Theorem closed_is_final (cs : list Call) (e : Env) :
  closed (conn (self e)) = true →
  Forall2 refused cs (run cs e).1 ∧ closed (conn (self (run cs e).2)) = true.
Proof.
  revert e. induction cs as [|c cs IH]; intros e Hcl; [by split |].
  cbn. destruct (call c e) as [o e1] eqn:Hc.
  destruct (run cs e1) as [os e2] eqn:Hrun. cbn.
  destruct (call_on_closed _ _ _ _ Hcl Hc) as [Ho Hcl1].
  specialize (IH e1 Hcl1). rewrite Hrun in IH. cbn in IH.
  destruct IH as [IH1 IH2]. split; [by constructor | done].
Qed.

(** X14.  Calling [recv] again and again inside the cooldown does nothing
    but read the clock: as long as the readings stay less than
    [query_cooldown] after [last_query], every call raises TooManyQueries
    and the connection, what is waiting on its socket included, is as it
    was. *)
Theorem polling_in_cooldown (k : nat) (t : option Z) (n : N) (e : Env) :
  (∀ i, (i < k)%nat →
        (ticks (clock e) (reads (clock e) + i) - last_query (self e)
         < query_cooldown (self e))%Z) →
  run (repeat (CallRecv t n) k) e =
    (repeat (Raised TooManyQueries) k,
     {| self := self e;
        clock := {| ticks := ticks (clock e);
                    reads := reads (clock e) + k |} |}).
Proof.
  revert e. induction k as [|k IH]; intros e Hin.
  - cbn. rewrite Nat.add_0_r. by destruct e as [? []].
  - assert (in_cooldown e) as H0.
    { unfold in_cooldown, now, clock_time. cbn.
      specialize (Hin 0%nat). rewrite Nat.add_0_r in Hin. apply Hin. lia. }
    cbn [repeat run call]. rewrite (recv_in_cooldown t n e H0). cbn [outcome_of].
    rewrite (IH (ticked e)).
    + cbn. by rewrite Nat.add_succ_r.
    + intros i Hi. cbn. specialize (Hin (S i)).
      rewrite Nat.add_succ_r in Hin. apply Hin. lia.
Qed.

End FurtherCalls.
(* ===================================================================== *)
(** ** Further properties: the ways out of [key_exchange]                 *)
(* ===================================================================== *)

Section FurtherHandshake.
Context {crypt : Crypt}.

Lemma on_raw_settimeout_open (t : option Z) (e : HsEnv) :
  closed (hs_conn e) = false → valid_timeout t →
  on_raw (sock_settimeout t) e =
    (Ok (), {| hs_conn := {| closed := false; timeout := t;
                             rx := rx (hs_conn e); tx := tx (hs_conn e);
                             calls := calls (hs_conn e) ++ [OpSetTimeout t];
                             memory := memory (hs_conn e) |};
               hs_entropy := hs_entropy e |}).
Proof.
  intros Hopen Ht. unfold on_raw. by rewrite sock_settimeout_open.
Qed.

(** When the steps raise, the handler closes and raises
    KeyExchangeFailed. *)
Lemma key_exchange_handled srv t anchor tsize e e1 x e2 :
  on_raw (sock_settimeout t) e = (Ok (), e1) →
  key_exchange_steps srv anchor tsize e1 = (Raise x, e2) →
  key_exchange srv t anchor tsize e =
    (Raise KeyExchangeFailed,
     {| hs_conn := (sock_close (hs_conn e2)).2;
        hs_entropy := hs_entropy e2 |}).
Proof.
  intros Hst Hsteps. unfold key_exchange.
  rewrite (bind_ok _ _ _ _ _ Hst).
  erewrite bind_raise; [done |]. by erewrite try_except_handled.
Qed.

(** X15.  On a raw connection that is already closed, or with a negative
    timeout, [key_exchange] raises what [settimeout] raises, an OSError or
    a ValueError and not KeyExchangeFailed: the call of [settimeout] is
    before the [try].  No message is sent, no entropy drawn, and
    [key_exchange] does not close the connection. *)
Theorem key_exchange_unusable_socket (srv : Server) (t : option Z)
  (tunnel_anchor token_size : N) (e : HsEnv) :
  closed (hs_conn e) = true ∨ ¬ valid_timeout t →
  ∃ x e', key_exchange srv t tunnel_anchor token_size e = (Raise x, e') ∧
          (x = ValueError ∨ x = OSError EBADF) ∧
          calls (hs_conn e') = calls (hs_conn e) ++ [OpSetTimeout t] ∧
          closed (hs_conn e') = closed (hs_conn e) ∧
          hs_entropy e' = hs_entropy e.
Proof.
  intros Hbad. destruct (sock_settimeout_fails t _ Hbad) as (x & Hst & Hx).
  assert (on_raw (sock_settimeout t) e =
            (Raise x, {| hs_conn := logged (OpSetTimeout t) (hs_conn e);
                         hs_entropy := hs_entropy e |})) as Hraw
    by (unfold on_raw; by rewrite Hst).
  destruct (key_exchange_settimeout_raises srv t tunnel_anchor token_size _ _ _
              Hraw) as (Hkx & _ & _).
  by eexists _, _.
Qed.

(** X16.  On an open raw connection and with a valid timeout,
    [key_exchange] has two ways out: it returns a connection around the
    raw connection, open, with no cooldown and no timestamp yet; or it
    raises KeyExchangeFailed and the raw connection is closed.  No other
    exception leaves it. *)
Theorem key_exchange_outcomes (srv : Server) (t : option Z)
  (tunnel_anchor token_size : N) (e : HsEnv) r e' :
  closed (hs_conn e) = false →
  valid_timeout t →
  key_exchange srv t tunnel_anchor token_size e = (r, e') →
  (∃ c, r = Ok c ∧ conn c = hs_conn e' ∧ closed (hs_conn e') = false ∧
        last_query c = 0%Z ∧ query_cooldown c = 0%Z) ∨
  (r = Raise KeyExchangeFailed ∧ closed (hs_conn e') = true).
Proof.
  intros Hopen Ht H.
  pose proof (on_raw_settimeout_open t e Hopen Ht) as Hst.
  set (e1 := {| hs_conn := _; hs_entropy := _ |}) in Hst.
  destruct (key_exchange_steps srv tunnel_anchor token_size e1)
    as [[[[tok stok] key]|x] e2] eqn:Hsteps.
  - left. unfold key_exchange in H.
    rewrite (bind_ok _ _ _ _ _ Hst) in H.
    erewrite bind_ok in H by (by apply try_except_ok).
    cbn in H. injection H as <- <-. eexists. split; [done |].
    apply key_exchange_steps_ok in Hsteps
      as (? & ? & ? & ? & ? & _ & _ & _ & _ & _ & _ & _ & Hcl & _).
    by rewrite Hcl.
  - right. rewrite (key_exchange_handled _ _ _ _ _ _ _ _ Hst Hsteps) in H.
    by injection H as <- <-.
Qed.

(** X17.  With a key dictionary that lacks "PUBLIC" or "PRIVATE" every
    handshake on an open raw connection, with a timeout that [settimeout]
    accepts, ends in KeyExchangeFailed with the connection closed; when it
    is "PUBLIC" that is missing, nothing has been sent or read before the
    connection is closed. *)
Theorem key_exchange_missing_key (srv : Server) (t : option Z)
  (tunnel_anchor token_size : N) (e : HsEnv) :
  closed (hs_conn e) = false →
  valid_timeout t →
  claves srv !! "PUBLIC" = None ∨ claves srv !! "PRIVATE" = None →
  ∃ e', key_exchange srv t tunnel_anchor token_size e
          = (Raise KeyExchangeFailed, e') ∧
        closed (hs_conn e') = true ∧
        (claves srv !! "PUBLIC" = None →
         calls (hs_conn e') = calls (hs_conn e) ++ [OpSetTimeout t; OpClose]).
Proof.
  intros Hopen Ht Hmiss.
  pose proof (on_raw_settimeout_open t e Hopen Ht) as Hst.
  set (e1 := {| hs_conn := _; hs_entropy := _ |}) in Hst.
  destruct (key_exchange_steps srv tunnel_anchor token_size e1)
    as [[[[tok stok] key]|x] e2] eqn:Hsteps.
  { apply key_exchange_steps_ok in Hsteps
      as (? & ? & ? & ? & ? & _ & _ & _ & Hpub & Hpriv & _).
    destruct Hmiss; congruence. }
  eexists. split; [by eapply key_exchange_handled |]. split; [done |].
  intros Hpub. revert Hsteps.
  unfold key_exchange_steps, clave, mbind, M_bind, draw. cbn.
  destruct (generate_aes 32 (hs_entropy e)) as [k r0]. rewrite Hpub. cbn.
  intros [= _ <-]. cbn. by rewrite <-app_assoc.
Qed.

End FurtherHandshake.

(* ===================================================================== *)
(** ** Further properties: the length prefix and the text codec           *)
(* ===================================================================== *)

(** X18.  The length prefix: [to_bytes] gives, for a number below
    [256 ^ size], [size] bytes from which [from_bytes] reads the number
    back, and raises for every other number; and [from_bytes] of any bytes
    is below 256 to the power of their count. *)
Theorem length_prefix_roundtrip (v size : N) :
  (v < 256 ^ size →
     ∃ p, to_bytes v size = Some p ∧ len p = size ∧ from_bytes p = v) ∧
  (256 ^ size ≤ v → to_bytes v size = None) ∧
  (∀ p, from_bytes p < 256 ^ len p).
Proof.
  split; [apply to_bytes_from_bytes |].
  split; [apply to_bytes_overflow | apply from_bytes_lt].
Qed.

(** X19.  Text survives the codec of [send] and [recv]: every string
    without surrogate code points and within the Unicode range encodes, and
    what it encodes to decodes to the same string. *)
Theorem utf8_roundtrip (s : str) :
  Forall scalar s → ∃ b, encode s = Some b ∧ decode b = Some s.
Proof.
  intros Hs. destruct (encode_scalar s Hs) as [b Hb].
  exists b. split; [done | by apply decode_encode].
Qed.

(* ===================================================================== *)
(** ** The further properties at the sample session                       *)
(* ===================================================================== *)

Import Samples.

(** The peer has reset the connection before the server sends "HOLA". *)
Lemma send_unwritable_witness :
  ∃ e', send hola 5 reset_end = (Raise DisconnectedClient, e') ∧
        closed (conn (self e')) = true ∧
        calls (conn (self e')) = [OpSend hola_frame; OpShutdown; OpClose].
Proof.
  assert (¬ writable (conn (self reset_end))) as Hw by (intros [_ []]).
  assert (len (encrypt_aes (server_token (self reset_end) ++ B [72; 79; 76; 65])
                 (aes_key (self reset_end))) < 256 ^ 5) as Hlen
    by (vm_compute; reflexivity).
  exact (send_unwritable hola 5 reset_end (B [72; 79; 76; 65]) eq_refl Hlen Hw).
Defined.

(** A ciphertext of 14 bytes and a length prefix of no bytes. *)
Lemma send_oversize_witness :
  send hola 0 server_end = (Raise OverflowError, server_end).
Proof.
  assert (256 ^ 0 ≤ len (encrypt_aes (server_token (self server_end)
                                        ++ B [72; 79; 76; 65])
                           (aes_key (self server_end)))) as Hlen
    by (vm_compute; discriminate).
  exact (send_oversize hola 0 server_end (B [72; 79; 76; 65]) eq_refl Hlen).
Defined.

(** "HOLA" sent to a peer that has reset the connection. *)
Lemma send_closes_only_on_disconnect_witness :
  let r := (send hola 5 reset_end).1 in
  let e' := (send hola 5 reset_end).2 in
  (∀ x, r = Raise x →
        x = UnicodeEncodeError ∨ x = OverflowError ∨ x = DisconnectedClient) ∧
  self e' = with_conn (conn (self e')) (self reset_end) ∧
  clock e' = clock reset_end ∧
  (closed (conn (self reset_end)) = false →
   (closed (conn (self e')) = true ↔ r = Raise DisconnectedClient)).
Proof.
  exact (send_closes_only_on_disconnect hola 5 reset_end
           (send hola 5 reset_end).1 (send hola 5 reset_end).2 eq_refl).
Defined.

(** Calls on the server's end after it was closed. *)
Lemma closed_is_final_witness :
  let cs := [CallSend hola 5; CallRecv None 5; CallSetQueryCooldown 3;
             CallClose; CallRecv None 5] in
  Forall2 refused cs (run cs closed_end).1 ∧
  closed (conn (self (run cs closed_end).2)) = true.
Proof.
  exact (closed_is_final
           [CallSend hola 5; CallRecv None 5; CallSetQueryCooldown 3;
            CallClose; CallRecv None 5] closed_end eq_refl).
Defined.

(** A length prefix of five bytes 255 announces 2^40 - 1 bytes, more than
    the machine has: [recv] raises MemoryError and the connection stays
    open. *)
Lemma recv_closes_only_on_disconnect_witness :
  let e := client_end [RxData (B [255; 255; 255; 255; 255; 1; 2; 3])] in
  let r := (recv None 5 e).1 in
  let e' := (recv None 5 e).2 in
  r = Raise MemoryError ∧
  (∀ x, r = Raise x → recv_raises x ∨ socket_raises x ∨ buffer_raises x) ∧
  (closed (conn (self e)) = false →
   (closed (conn (self e')) = true ↔ r = Raise DisconnectedClient)).
Proof.
  split; [vm_compute; reflexivity |].
  exact (recv_closes_only_on_disconnect None 5
           (client_end [RxData (B [255; 255; 255; 255; 255; 1; 2; 3])])
           (recv None 5
              (client_end [RxData (B [255; 255; 255; 255; 255; 1; 2; 3])])).1
           (recv None 5
              (client_end [RxData (B [255; 255; 255; 255; 255; 1; 2; 3])])).2
           eq_refl).
Defined.

(** A payload that is not UTF-8 after the right token: UnicodeDecodeError,
    and the timestamp is the second clock reading, 101. *)
Lemma recv_stamps_witness :
  let e := client_end [RxData (frame_of (B [255]))] in
  (recv None 5 e).1 = Raise UnicodeDecodeError ∧
  last_query (self (recv None 5 e).2) = 101%Z.
Proof.
  split; [vm_compute; reflexivity |].
  exact (recv_stamps None 5 (client_end [RxData (frame_of (B [255]))])
           (recv None 5 (client_end [RxData (frame_of (B [255]))])).1
           (recv None 5 (client_end [RxData (frame_of (B [255]))])).2
           eq_refl).
Defined.

(** Five zero bytes, then more. *)
Lemma recv_zero_length_witness :
  ∃ e', recv None 5 (client_end [RxData (B [0; 0; 0; 0; 0; 1; 2; 3])])
          = (Raise DisconnectedClient, e') ∧
        closed (conn (self e')) = true ∧
        rx (conn (self e')) = [RxData (B [1; 2; 3])].
Proof.
  assert (5 ≠ 0) as Hn by discriminate.
  assert (granted
            (conn (self (client_end [RxData (B [0; 0; 0; 0; 0; 1; 2; 3])]))) 5)
    as Hg by (split; by vm_compute).
  exact (recv_zero_length None 5
           (client_end [RxData (B [0; 0; 0; 0; 0; 1; 2; 3])])
           (B [0; 0; 0; 0; 0]) (B [1; 2; 3]) []
           (sample_not_in_cooldown _) eq_refl I Hn eq_refl eq_refl Hg eq_refl).
Defined.

(** A length prefix of five bytes 255, then three bytes. *)
Lemma recv_unallocatable_witness :
  ∃ e', recv None 5 (client_end [RxData (B [255; 255; 255; 255; 255; 1; 2; 3])])
          = (Raise MemoryError, e') ∧
        closed (conn (self e')) = false ∧
        rx (conn (self e')) = [RxData (B [1; 2; 3])] ∧
        calls (conn (self e')) =
          [OpSetTimeout None; OpRecv 5 (Some (B [255; 255; 255; 255; 255]));
           OpRecv 1099511627775 None] ∧
        last_query (self e') = 0%Z.
Proof.
  set (e := client_end [RxData (B [255; 255; 255; 255; 255; 1; 2; 3])]).
  assert (5 ≠ 0) as Hn by discriminate.
  assert (granted (conn (self e)) 5) as Hg by (split; by vm_compute).
  assert (¬ granted (conn (self e))
              (from_bytes (B [255; 255; 255; 255; 255]))) as Hng
    by (intros [_ Hm]; by vm_compute in Hm).
  exact (recv_unallocatable None 5 e (B [255; 255; 255; 255; 255])
           (B [1; 2; 3]) [] (sample_not_in_cooldown _) eq_refl I Hn eq_refl
           Hg Hng eq_refl).
Defined.

(** The reads of the client's end on the frame of "HOLA". *)
Lemma recv_read_sizes_witness :
  let e := client_end [RxData hola_frame] in
  ∃ new, calls (conn (self (recv None 5 e).2)) = calls (conn (self e)) ++ new ∧
         ∀ size got, OpRecv size got ∈ new → size = 5 ∨ size < 256 ^ 5.
Proof.
  exact (recv_read_sizes None 5 (client_end [RxData hola_frame])
           (recv None 5 (client_end [RxData hola_frame])).1
           (recv None 5 (client_end [RxData hola_frame])).2 eq_refl).
Defined.

(** The server's end gets its own frame of "HOLA" back. *)
Lemma recv_rejects_other_token_witness :
  ∃ e', recv None 5 echo_end = (Raise InvalidToken, e') ∧
        closed (conn (self e')) = false ∧
        last_query (self e') = 0%Z.
Proof.
  assert (¬ in_cooldown echo_end) as Hcool
    by (unfold in_cooldown, now; cbn; lia).
  assert (len (encrypt_aes (stok ++ B [72; 79; 76; 65])
                 (aes_key (self echo_end))) < 256 ^ 5) as Hlen
    by (vm_compute; reflexivity).
  assert (stok ≠ client_token (self echo_end)) as Hne by discriminate.
  assert (granted (conn (self echo_end)) 5) as Hg1 by (split; by vm_compute).
  assert (granted (conn (self echo_end))
            (len (encrypt_aes (stok ++ B [72; 79; 76; 65])
                    (aes_key (self echo_end))))) as Hg2
    by (split; by vm_compute).
  exact (recv_rejects_other_token (sound := sound) None 5 echo_end stok
           (B [72; 79; 76; 65]) [] [] Hcool eq_refl I Hlen Hg1 Hg2 eq_refl
           eq_refl Hne).
Defined.

(** "HOLA" and "OK" arrive together. *)
Lemma recv_frames_in_order_witness :
  ∃ e', run [CallRecv None 5; CallRecv None 5]
          (client_end [RxData (hola_frame ++ ok_frame)])
          = ([Returned (Some hola); Returned (Some ok)], e') ∧
        rx (conn (self e')) = [].
Proof.
  set (e := client_end [RxData (hola_frame ++ ok_frame)]).
  assert (len (encrypt_aes (client_token (self e) ++ B [72; 79; 76; 65])
                 (aes_key (self e))) < 256 ^ 5) as Hl1
    by (vm_compute; reflexivity).
  assert (len (encrypt_aes (client_token (self e) ++ B [79; 75])
                 (aes_key (self e))) < 256 ^ 5) as Hl2
    by (vm_compute; reflexivity).
  assert (query_cooldown (self e)
          ≤ ticks (clock e) (S (S (reads (clock e))))
            - ticks (clock e) (S (reads (clock e))))%Z as Hcd
    by (vm_compute; discriminate).
  assert (granted (conn (self e)) 5) as Hg by (split; by vm_compute).
  assert (granted (conn (self e))
            (len (encrypt_aes (client_token (self e) ++ B [72; 79; 76; 65])
                    (aes_key (self e))))) as Hg1 by (split; by vm_compute).
  assert (granted (conn (self e))
            (len (encrypt_aes (client_token (self e) ++ B [79; 75])
                    (aes_key (self e))))) as Hg2 by (split; by vm_compute).
  exact (recv_frames_in_order (sound := sound) None 5 e hola ok
           (B [72; 79; 76; 65]) (B [79; 75]) [] [] eq_refl eq_refl Hl1 Hl2
           (sample_not_in_cooldown _) Hcd eq_refl I Hg Hg1 Hg2 eq_refl).
Defined.


(** A handshake on a raw connection closed beforehand. *)
Lemma key_exchange_unusable_socket_witness :
  ∃ x e', key_exchange server None 1048576 4 closed_raw = (Raise x, e') ∧
          (x = ValueError ∨ x = OSError EBADF) ∧
          calls (hs_conn e') = [OpClose; OpSetTimeout None] ∧
          closed (hs_conn e') = true ∧
          hs_entropy e' = 5.
Proof.
  exact (key_exchange_unusable_socket server None 1048576 4 closed_raw
           (or_introl eq_refl)).
Defined.

(** The sample handshake returns a connection. *)
Lemma key_exchange_outcomes_witness :
  let r := (key_exchange server None 1048576 4 (hs0 handshake_rx [])).1 in
  let e' := (key_exchange server None 1048576 4 (hs0 handshake_rx [])).2 in
  (∃ c, r = Ok c ∧ conn c = hs_conn e' ∧ closed (hs_conn e') = false ∧
        last_query c = 0%Z ∧ query_cooldown c = 0%Z) ∨
  (r = Raise KeyExchangeFailed ∧ closed (hs_conn e') = true).
Proof.
  exact (key_exchange_outcomes server None 1048576 4 (hs0 handshake_rx [])
           (key_exchange server None 1048576 4 (hs0 handshake_rx [])).1
           (key_exchange server None 1048576 4 (hs0 handshake_rx [])).2
           eq_refl I eq_refl).
Defined.

(** A server without keys. *)
Lemma key_exchange_missing_key_witness :
  ∃ e', key_exchange keyless None 1048576 4 (hs0 handshake_rx [])
          = (Raise KeyExchangeFailed, e') ∧
        closed (hs_conn e') = true ∧
        (claves keyless !! "PUBLIC" = None →
         calls (hs_conn e') = [OpSetTimeout None; OpClose]).
Proof.
  exact (key_exchange_missing_key keyless None 1048576 4 (hs0 handshake_rx [])
           eq_refl I (or_introl eq_refl)).
Defined.

(** "HOLA" *)
Lemma utf8_roundtrip_witness :
  ∃ b, encode hola = Some b ∧ decode b = Some hola.
Proof.
  assert (Forall scalar hola) as Hs
    by (repeat (constructor; [left; vm_compute; reflexivity |]); constructor).
  exact (utf8_roundtrip hola Hs).
Defined.

(** Three calls within a cooldown of ten, the clock advancing by one. *)
Lemma polling_in_cooldown_witness :
  let e := (set_query_cooldown 10 (client_end [RxData hola_frame])).2 in
  let e1 := (recv None 5 e).2 in
  run (repeat (CallRecv None 5) 3) e1 =
    (repeat (Raised TooManyQueries) 3,
     {| self := self e1;
        clock := {| ticks := ticks (clock e1);
                    reads := reads (clock e1) + 3 |} |}).
Proof.
  set (e1 := (recv None 5
                (set_query_cooldown 10 (client_end [RxData hola_frame])).2).2).
  assert (∀ i, (i < 3)%nat →
            (ticks (clock e1) (reads (clock e1) + i) - last_query (self e1)
             < query_cooldown (self e1))%Z) as Hin.
  { intros i Hi. change (100 + 1 * Z.of_nat (2 + i) - 101 < 10)%Z. lia. }
  exact (polling_in_cooldown 3 None 5 e1 Hin).
Defined.
